(** * ush: a shallow embedding of src/main.c

    The shell is single threaded; its C code is embedded as functions in a
    small state monad over a [world] that holds the process-wide variables
    ([history_str], [history_pos]), the standard streams, the working
    directory and two ghost logs (allocation requests, memory violations).
    Everything the operating system decides (allocator, [pathconf],
    [getcwd], [chdir], [fork], [execvp]), and what a read finds in memory
    behind a heap block, is an oracle of [os_env]. *)

From Stdlib Require Import ZArith Ascii String List Lia DecimalString.
From stdpp Require Import base tactics option list numbers strings.
Import ListNotations.

Local Open Scope nat_scope.

(** ** Characters and C strings *)

(** A [char] buffer is a list of bytes; reading at or past the end of the
    list yields the terminator. *)
Definition NUL : ascii := "000"%char.

Definition is_nul (c : ascii) : bool := Ascii.eqb c NUL.

Definition char_at (buf : list ascii) (i : nat) : ascii := nth i buf NUL.

(** [strlen]: number of bytes before the first terminator. *)
Fixpoint strlen (s : list ascii) : nat :=
  match s with
  | [] => 0
  | c :: s' => if is_nul c then 0 else S (strlen s')
  end.

(** The text a [%s] conversion or a [strcpy] reads from a pointer. *)
Definition cstr (s : list ascii) : list ascii := take (strlen s) s.

(** String literals of the C source. *)
Definition lit (s : string) : list ascii := list_ascii_of_string s.

Definition LF : ascii := "010"%char.

(** [strcmp(a, b) == 0] *)
Definition streq (a b : list ascii) : bool :=
  bool_decide (cstr a = cstr b).

(** ** The world *)

Inductive errno : Type :=
| ERANGE
| EINVAL
| EOTHER (n : nat).

(** A heap block of [char]: the size granted by the allocator and the bytes
    written from its first byte on. The first [blk_size] of them are the
    block's. A byte written past [blk_size] is a violation, recorded in
    [w_oob]: it lands in memory that is not the block's, and a later read
    need not find it there. *)
Record block : Type := Block {
  blk_size : nat;
  blk_bytes : list ascii
}.

Inductive violation : Type :=
| StrcpyOverflow (granted needed : nat)
| StoreOutOfBounds (index cap_bytes : nat).

Record world : Type := World {
  history_str : list (option block);  (* char* history_str[20] *)
  history_pos : nat;                  (* size_t history_pos *)
  w_stdin : list (list ascii);        (* lines still to be read *)
  w_stdout : list ascii;
  w_stderr : list ascii;
  w_cwd : list ascii;                 (* working directory of the process *)
  w_heap : list nat;                  (* ghost: sizes of granted requests *)
  w_oob : list violation              (* ghost: out-of-bounds writes *)
}.

Definition set_history (h : list (option block)) (p : nat) (w : world) : world :=
  World h p (w_stdin w) (w_stdout w) (w_stderr w) (w_cwd w) (w_heap w) (w_oob w).
Definition set_stdin (i : list (list ascii)) (w : world) : world :=
  World (history_str w) (history_pos w) i (w_stdout w) (w_stderr w) (w_cwd w)
        (w_heap w) (w_oob w).
Definition set_stdout (o : list ascii) (w : world) : world :=
  World (history_str w) (history_pos w) (w_stdin w) o (w_stderr w) (w_cwd w)
        (w_heap w) (w_oob w).
Definition set_stderr (e : list ascii) (w : world) : world :=
  World (history_str w) (history_pos w) (w_stdin w) (w_stdout w) e (w_cwd w)
        (w_heap w) (w_oob w).
Definition set_cwd (d : list ascii) (w : world) : world :=
  World (history_str w) (history_pos w) (w_stdin w) (w_stdout w) (w_stderr w) d
        (w_heap w) (w_oob w).
Definition set_heap (h : list nat) (w : world) : world :=
  World (history_str w) (history_pos w) (w_stdin w) (w_stdout w) (w_stderr w)
        (w_cwd w) h (w_oob w).
Definition set_oob (v : list violation) (w : world) : world :=
  World (history_str w) (history_pos w) (w_stdin w) (w_stdout w) (w_stderr w)
        (w_cwd w) (w_heap w) v.

(** No write has left its block so far. *)
Definition mem_safe (w : world) : Prop := w_oob w = [].

(** ** The monad of shell code

    [Ret]: the C function returned; [Exit]: the process ended inside it
    ([exit], or its image was replaced by [execvp]); [Unfinished]: the model
    ran out of fuel or of input lines. *)
Inductive outcome (A : Type) : Type :=
| Ret (a : A) (w : world)
| Exit (code : Z) (w : world)
| Unfinished.
Arguments Ret {A} a w.
Arguments Exit {A} code w.
Arguments Unfinished {A}.

Definition sh (A : Type) : Type := world → outcome A.

Definition sh_ret {A} (a : A) : sh A := λ w, Ret a w.

Definition sh_bind {A B} (m : sh A) (k : A → sh B) : sh B :=
  λ w, match m w with
       | Ret a w' => k a w'
       | Exit c w' => Exit c w'
       | Unfinished => Unfinished
       end.

#[global] Instance sh_mret : MRet sh := @sh_ret.
#[global] Instance sh_mbind : MBind sh := λ A B k m, sh_bind m k.

Notation "'let*' x := m 'in' k" := (sh_bind m (λ x, k))
  (at level 10, x pattern, m at level 100, k at level 200).

Definition EXIT_FAILURE : Z := 1.

Definition exit {A} (code : Z) : sh A := λ w, Exit code w.
Definition unfinished {A} : sh A := λ _, Unfinished.
Definition get_world : sh world := λ w, Ret w w.
Definition modify (f : world → world) : sh unit := λ w, Ret tt (f w).

(** [printf]/[fputs] on stdout and [fprintf(stderr, ...)]. *)
Definition print (s : list ascii) : sh unit :=
  modify (λ w, set_stdout (w_stdout w ++ s) w).
Definition eprint (s : list ascii) : sh unit :=
  modify (λ w, set_stderr (w_stderr w ++ s) w).
Definition violate (v : violation) : sh unit :=
  modify (λ w, set_oob (w_oob w ++ [v]) w).

(** ** Operating system and C library *)

Inductive fork_result : Type :=
| ForkChild                 (* fork() == 0: this is the new process *)
| ForkFailed (e : errno)    (* fork() < 0 *)
| ForkParent (status : Z).  (* fork() > 0; the child ends with [status] *)

Record os_env : Type := OsEnv {
  sizeof_ptr : nat;                         (* sizeof(char * ) *)
  alloc_ok : nat → bool;                    (* is a request of n bytes granted *)
  pathconf_path_max : Z;                    (* pathconf(".", _PC_PATH_MAX) *)
  getcwd_failure : option errno;            (* a failure other than the size *)
  chdir_result : list ascii → list ascii → errno + list ascii;
  fork_outcome : list (list ascii) → fork_result;
  execvp_outcome : list (list ascii) → errno + Z;
  strerror : errno → list ascii;
  (* what a string read that runs off the end of the block in slot [i] of
     [history_str] finds behind it, up to the first NUL; this memory is the
     allocator's, so it is given for the slots as they are at the read *)
  past_entry : list (option block) → nat → list ascii
}.

(** [strspn(s, accept)] and [strcspn(s, reject)]; both stop at the
    terminator. *)
Definition mem_char (c : ascii) (set : list ascii) : bool :=
  existsb (Ascii.eqb c) set.
Arguments mem_char : simpl never.

Fixpoint strspn (s accept : list ascii) : nat :=
  match s with
  | [] => 0
  | c :: s' =>
      if is_nul c then 0
      else if mem_char c accept then S (strspn s' accept) else 0
  end.

Fixpoint strcspn (s reject : list ascii) : nat :=
  match s with
  | [] => 0
  | c :: s' =>
      if is_nul c then 0
      else if mem_char c reject then 0 else S (strcspn s' reject)
  end.

(** [strtok] on the buffer [buf], resuming at offset [s] (offset 0 for the
    first call, the saved offset for the calls with a null first argument).
    Result: the token's offset (or [None] for a null result), the buffer
    after the call, and the saved offset. *)
Definition strtok (buf : list ascii) (s : nat) (delim : list ascii)
  : option nat * list ascii * nat :=
  let s1 := s + strspn (drop s buf) delim in
  if is_nul (char_at buf s1) then (None, buf, s1)
  else
    let e := s1 + strcspn (drop s1 buf) delim in
    if is_nul (char_at buf e) then (Some s1, buf, e)
    else (Some s1, <[e := NUL]> buf, S e).

Section Shell.
Context (os : os_env).

(** [malloc(n)] and [realloc(p, n)]: [true] when the request is granted (a
    non-null result). *)
Definition malloc (n : nat) : sh bool :=
  if alloc_ok os n
  then modify (λ w, set_heap (w_heap w ++ [n]) w);; mret true
  else mret false.

Definition realloc (n : nat) : sh bool := malloc n.

(** [perror("ush")] *)
Definition perror (e : errno) : sh unit :=
  eprint (lit "ush: " ++ strerror os e ++ [LF]).

Definition allocation_error {A} : sh A :=
  eprint (lit "ush: allocation error" ++ [LF]);; exit EXIT_FAILURE.

(** ** Tokenizer: [ush_split_line] *)

Definition USH_TOK_BUFSIZE : nat := 64.
Definition USH_TOK_DELIM : list ascii :=
  [" "; "034"; "009"; "013"; "010"; "007"; "("; ")"]%char.

(** One element of the [char**] array: a null pointer, a pointer into the
    line buffer (an offset), or a slot never written. *)
Inductive slot : Type :=
| Null
| Tok (off : nat)
| Junk.

#[global] Instance slot_eq_dec : EqDecision slot.
Proof. solve_decision. Defined.

(** The array: the bytes the allocator granted and the slots it holds. *)
Record tok_array : Type := TokArray {
  ta_cap : nat;
  ta_slots : list slot
}.

Definition write_at (i : nat) (v : slot) (l : list slot) : list slot :=
  if i <? length l then <[i := v]> l
  else l ++ replicate (i - length l) Junk ++ [v].

(** [tokens[i] = v]: the store lands when slot [i] lies within the granted
    bytes; otherwise it falls outside the array and is recorded as a
    violation. What the program does from there on is not defined by the
    source; the model goes on with the array as it is, so that of a run
    with a violation only what comes before the violation, and the
    violation itself, is to be read as the program's. *)
Definition store_slot (a : tok_array) (i : nat) (v : slot) : sh tok_array :=
  if S i * sizeof_ptr os <=? ta_cap a
  then mret (TokArray (ta_cap a) (write_at i v (ta_slots a)))
  else violate (StoreOutOfBounds i (ta_cap a));; mret a.

(** [realloc(tokens, n)]: [n] bytes; the contents are kept up to the
    smaller of the old and the new size. *)
Definition realloc_tokens (a : tok_array) (n : nat) : sh (option tok_array) :=
  let* granted := realloc n in
  if granted
  then mret (Some (TokArray n (take (n / sizeof_ptr os) (ta_slots a))))
  else mret None.

(** The [if (pos == bufsize) { ... }] block: double [bufsize] and
    [realloc] the array to [bufsize] bytes. *)
Definition grow_if_full (tokens : tok_array) (bufsize pos : nat)
  : sh (tok_array * nat) :=
  if pos =? bufsize then
    let bufsize := bufsize * 2 in
    let* ptr := realloc_tokens tokens bufsize in
    match ptr with
    | None => allocation_error
    | Some ptr => mret (ptr, bufsize)
    end
  else mret (tokens, bufsize).

(** The [while (token != NULL)] loop and the final store of the sentinel. *)
Fixpoint split_loop (fuel : nat) (line : list ascii) (save : nat)
    (token : option nat) (tokens : tok_array) (bufsize pos : nat)
  : sh (tok_array * list ascii) :=
  match token with
  | None =>
      let* tokens := store_slot tokens pos Null in
      mret (tokens, line)
  | Some t =>
      match fuel with
      | 0 => unfinished
      | S fuel =>
          let* tokens := store_slot tokens pos (Tok t) in
          let pos := S pos in
          let* (tokens, bufsize) := grow_if_full tokens bufsize pos in
          let '(token, line, save) := strtok line save USH_TOK_DELIM in
          split_loop fuel line save token tokens bufsize pos
      end
  end.

Definition ush_split_line (line : list ascii) : sh (tok_array * list ascii) :=
  let bufsize := USH_TOK_BUFSIZE in
  let pos := 0 in
  let* granted := malloc (sizeof_ptr os * bufsize) in
  if negb granted then allocation_error
  else
    let tokens := TokArray (sizeof_ptr os * bufsize) [] in
    let '(token, line, save) := strtok line 0 USH_TOK_DELIM in
    split_loop (length line) line save token tokens bufsize pos.

(** What a reader of [args] sees: the strings the slots point to, up to
    the first null slot (or to the last slot the array holds). *)
Fixpoint args_of (line : list ascii) (slots : list slot) : list (list ascii) :=
  match slots with
  | Tok off :: slots' => cstr (drop off line) :: args_of line slots'
  | _ => []
  end.

(** ** History buffer *)

Definition USH_MAX_HISTORY_COUNT : nat := 20.

(** [%lu] and [%4lu] *)
Definition fmt_lu (n : nat) : list ascii :=
  lit (NilEmpty.string_of_uint (Nat.to_uint n)).

Definition pad_left (width : nat) (s : list ascii) : list ascii :=
  replicate (width - length s) " "%char ++ s.

(** The string [printf("%s")] reads at [history_str[i]]: the bytes of the
    block up to its terminator. A block that holds no terminator makes the
    read run off its end: it goes on with what the platform has behind the
    block, up to the first terminator there. *)
Definition entry_string (slots : list (option block)) (i : nat)
    (entry : block) : list ascii :=
  let own := take (blk_size entry) (blk_bytes entry) in
  if existsb is_nul own then cstr own
  else own ++ cstr (past_entry os slots i).

(** [printf("%4lu   %s\n", history_num, entry)] *)
Definition history_line (history_num : nat) (entry : list ascii) : list ascii :=
  pad_left 4 (fmt_lu history_num) ++ lit "   " ++ cstr entry ++ [LF].

(** The [do ... while (i != history_pos)] loop of [ush_history]; a slot
    index outside the array reads as null. *)
Fixpoint history_loop (fuel : nat) (i history_num : nat) : sh unit :=
  match fuel with
  | 0 => unfinished
  | S fuel =>
      let* w := get_world in
      let* history_num :=
        match history_str w !! i with
        | Some (Some entry) =>
            print (history_line history_num
                     (entry_string (history_str w) i entry));;
            mret (S history_num)
        | _ => mret history_num
        end in
      let i := (i + 1) mod USH_MAX_HISTORY_COUNT in
      if i =? history_pos w then mret tt
      else history_loop fuel i history_num
  end.

Definition ush_history (args : list (list ascii)) : sh Z :=
  let history_num := 1 in
  let* w := get_world in
  let i := history_pos w in
  history_loop USH_MAX_HISTORY_COUNT i history_num;;
  mret 1%Z.

(** [strcpy(dst, src)] into a fresh block: the text and its terminator are
    written from the first byte on, whatever the size of the block; what
    does not fit is written behind it and logged. *)
Definition strcpy (dst : block) (src : list ascii) : sh block :=
  let bytes := cstr src ++ [NUL] in
  (if blk_size dst <? length bytes
   then violate (StrcpyOverflow (blk_size dst) (length bytes))
   else mret tt);;
  mret (Block (blk_size dst) bytes).

(** [free(history_str[history_pos])] releases the block the slot owned;
    the slot is overwritten below, so nothing of it stays observable. *)
Definition add_to_history_util (line : list ascii) : sh unit :=
  let line_size := strlen line in
  let* granted := malloc (line_size * 1) in
  if negb granted then allocation_error
  else
    let* history_entry := strcpy (Block (line_size * 1) []) line in
    modify (λ w,
      set_history (<[history_pos w := Some history_entry]> (history_str w))
                  ((history_pos w + 1) mod USH_MAX_HISTORY_COUNT) w).

(** ** Builtins *)

Definition builtin_str : list (list ascii) :=
  [lit "cd"; lit "help"; lit "exit"; lit "echo"; lit "history"; lit "pwd"].

Definition ush_num_builtins : nat := length builtin_str.

Definition DQUOTE : ascii := "034"%char.
Definition TAB : ascii := "009"%char.

Definition ush_cd (args : list (list ascii)) : sh Z :=
  match args !! 1 with
  | None =>
      eprint (lit "ush: expected argument with " ++ [DQUOTE] ++ lit "cd"
              ++ [DQUOTE; LF])
  | Some dir =>
      let* w := get_world in
      match chdir_result os (w_cwd w) dir with
      | inl e => perror e
      | inr dir' => modify (set_cwd dir')
      end
  end;;
  mret 1%Z.

Fixpoint help_loop (names : list (list ascii)) : sh unit :=
  match names with
  | [] => mret tt
  | name :: names => print ([TAB] ++ name ++ [LF]);; help_loop names
  end.

Definition ush_help (args : list (list ascii)) : sh Z :=
  print (lit "Aditya Narad's Linux Shell" ++ [LF]);;
  print (lit "How to Use Shell: Type the commands followed by arguments(if any) and press Enter." ++ [LF]);;
  print (lit "Following are the builtin commands :" ++ [LF]);;
  help_loop (take ush_num_builtins builtin_str);;
  mret 1%Z.

Definition ush_exit (args : list (list ascii)) : sh Z := mret 0%Z.

(** [for (i = 1; args[i] != NULL; i++) printf("%s ", args[i]);] *)
Fixpoint echo_loop (rest : list (list ascii)) : sh unit :=
  match rest with
  | [] => mret tt
  | arg :: rest => print (cstr arg ++ lit " ");; echo_loop rest
  end.

Definition ush_echo (args : list (list ascii)) : sh Z :=
  echo_loop (drop 1 args);;
  print [LF];;
  mret 1%Z.

(** [getcwd(buf, size)] *)
Definition getcwd (size : Z) : sh (errno + list ascii) :=
  let* w := get_world in
  if (size =? 0)%Z then mret (inl EINVAL)
  else match getcwd_failure os with
       | Some e => mret (inl e)
       | None =>
           if (Z.of_nat (strlen (w_cwd w)) + 1 <=? size)%Z
           then mret (inr (cstr (w_cwd w)))
           else mret (inl ERANGE)
       end.

Definition is_ERANGE (e : errno) : bool :=
  match e with ERANGE => true | _ => false end.

(** [unsigned int] arithmetic wraps modulo [2^32]. *)
Definition UINT_MODULUS : Z := 2 ^ 32.

Definition pwd_initial_size (path_max : Z) : Z :=
  if (path_max =? -1)%Z then 1024%Z
  else if (path_max >? 10240)%Z then 10240%Z
  else (path_max mod UINT_MODULUS)%Z.

(** [for (buf = ptr = NULL; ptr == NULL; size *= 2) { ... }] followed by
    the [printf("%s", ptr)]. *)
Fixpoint pwd_loop (fuel : nat) (size : Z) : sh Z :=
  match fuel with
  | 0 => unfinished
  | S fuel =>
      let* granted := realloc (Z.to_nat size) in
      if negb granted then allocation_error
      else
        let* ptr := getcwd size in
        match ptr with
        | inl e =>
            if negb (is_ERANGE e) then perror e;; mret 1%Z
            else pwd_loop fuel ((size * 2) mod UINT_MODULUS)%Z
        | inr dir => print dir;; mret 1%Z
        end
  end.

Definition ush_pwd (args : list (list ascii)) : sh Z :=
  let path_max := pathconf_path_max os in
  let size := pwd_initial_size path_max in
  pwd_loop 64 size.

Definition builtin_func : list (list (list ascii) → sh Z) :=
  [ush_cd; ush_help; ush_exit; ush_echo; ush_history; ush_pwd].

(** ** Launcher and dispatcher *)

(** In the new process [execvp] either fails or replaces the image, in
    which case the process ends with the status of the program it runs;
    the [exit(EXIT_SUCCESS)] after the test is never reached. *)
Definition ush_launch (args : list (list ascii)) : sh Z :=
  match fork_outcome os args with
  | ForkChild =>
      match execvp_outcome os args with
      | inl e => perror e;; exit EXIT_FAILURE
      | inr status => exit status
      end
  | ForkFailed e => perror e;; mret 1%Z
  | ForkParent _ => mret 1%Z          (* wait(NULL) *)
  end.

(** The linear scan over the two parallel tables. *)
Fixpoint dispatch (table : list (list ascii * (list (list ascii) → sh Z)))
    (args : list (list ascii)) (arg0 : list ascii) : sh Z :=
  match table with
  | [] => ush_launch args
  | (name, func) :: table =>
      if streq arg0 name then func args else dispatch table args arg0
  end.

Definition ush_execute (args : list (list ascii)) : sh Z :=
  match args with
  | [] => mret 1%Z
  | arg0 :: _ =>
      dispatch (take ush_num_builtins (zip builtin_str builtin_func)) args arg0
  end.

(** ** Read-eval loop *)

(** [getline]: the next line of standard input, terminator appended. *)
Definition ush_read_line : sh (list ascii) :=
  let* w := get_world in
  match w_stdin w with
  | [] => unfinished
  | inp_line :: rest => modify (set_stdin rest);; mret (inp_line ++ [NUL])
  end.

Definition is_null (v : option slot) : bool :=
  match v with Some (Tok _) => false | _ => true end.

(** One pass through the body of the [do ... while (status)] loop. *)
Definition ush_loop_body : sh Z :=
  print ([LF] ++ lit "> ");;
  let* line := ush_read_line in
  let* (tokens, line) := ush_split_line line in
  let args := args_of line (ta_slots tokens) in
  (if negb (is_null (ta_slots tokens !! 0))
   then add_to_history_util line
   else mret tt);;
  let* status := ush_execute args in
  mret status.

Fixpoint ush_loop (fuel : nat) : sh unit :=
  match fuel with
  | 0 => unfinished
  | S fuel =>
      let* status := ush_loop_body in
      if (status =? 0)%Z then mret tt else ush_loop fuel
  end.



(** A session that records the given lines, one after the other. *)
Fixpoint record_all (lines : list (list ascii)) : sh unit :=
  match lines with
  | [] => mret tt
  | line :: lines => add_to_history_util line;; record_all lines
  end.

End Shell.

(** ** The tokenizer's contract, in the words of the specification *)

Definition is_delim (c : ascii) : bool := mem_char c USH_TOK_DELIM.

Definition emit (cur : list ascii) (rest : list (list ascii))
  : list (list ascii) :=
  match cur with
  | [] => rest
  | _ => rev cur :: rest
  end.

(** The maximal runs of non-delimiter characters of a text, left to right;
    [cur] holds the run being read, last character first. *)
Fixpoint tokens_acc (cur s : list ascii) : list (list ascii) :=
  match s with
  | [] => emit cur []
  | c :: s' =>
      if is_delim c then emit cur (tokens_acc [] s')
      else tokens_acc (c :: cur) s'
  end.

Definition tokens_of (s : list ascii) : list (list ascii) := tokens_acc [] s.

(** Character classes. *)

Definition nonnul (c : ascii) : Prop := is_nul c = false.
Definition delim_char (c : ascii) : Prop := is_delim c = true.
Definition nondelim_char (c : ascii) : Prop := is_delim c = false.
Definition word_char (c : ascii) : Prop := nondelim_char c ∧ nonnul c.

(** The specification's reading of a text: runs of delimiters separate
    the tokens, and every token is a maximal non-empty run of other
    characters (it ends at a delimiter or at the end of the text). *)
Inductive tokenization : list ascii → list (list ascii) → Prop :=
| tokenization_end d :
    Forall delim_char d → tokenization d []
| tokenization_last d t :
    Forall delim_char d → t ≠ [] → Forall nondelim_char t →
    tokenization (d ++ t) [t]
| tokenization_next d t c rest toks :
    Forall delim_char d → t ≠ [] → Forall nondelim_char t → delim_char c →
    tokenization rest toks →
    tokenization (d ++ t ++ c :: rest) (t :: toks).

(** A buffer position where a C string ends. *)
Definition at_end (r : list ascii) : Prop := is_nul (char_at r 0) = true.

(** ** Definitions used in the statements and proofs *)

Definition texts (line : list ascii) (offs : list nat) : list (list ascii) :=
  map (λ off, cstr (drop off line)) offs.

(** The tokens still to be delivered when the loop holds [token] and
    [strtok] would resume at [save]. *)
Definition remaining (line : list ascii) (save : nat) (token : option nat)
  : list (list ascii) :=
  match token with
  | None => []
  | Some t => cstr (drop t line) :: tokens_of (cstr (drop save line))
  end.

(** The current token lies before the saved offset, and the fuel covers
    the rest of the buffer. *)
Definition tok_ok (fuel : nat) (line : list ascii) (save : nat)
    (token : option nat) : Prop :=
  match token with
  | None => True
  | Some t =>
      t < save ∧ t < length line ∧ length line ≤ fuel + t ∧
      strlen (drop t line) + t ≤ save
  end.

(** The violation log only grows. *)
Definition oob_extends (w w' : world) : Prop := ∃ vs, w_oob w' = w_oob w ++ vs.

(** The slots in the order [ush_history] visits them: from the cursor to
    the end of the array, then from the start up to the cursor. *)
Definition ring_order {A} (pos : nat) (slots : list A) : list A :=
  drop pos slots ++ take pos slots.

(** The lines [ush_history] prints for a list of entries, numbered from
    [num] on. *)
Fixpoint history_listing (num : nat) (entries : list (list ascii))
  : list ascii :=
  match entries with
  | [] => []
  | e :: es => history_line num e ++ history_listing (S num) es
  end.

(** What [printf("%s")] reads at each slot of the array. *)
Definition slot_strings (os : os_env) (slots : list (option block))
  : list (option (list ascii)) :=
  imap (λ i slot, entry_string os slots i <$> slot) slots.

(** The text of a whole listing in a given world. *)
Definition history_text (os : os_env) (w : world) : list ascii :=
  history_listing 1
    (omap id (ring_order (history_pos w) (slot_strings os (history_str w)))).



Definition history_wf (w : world) : Prop :=
  length (history_str w) = USH_MAX_HISTORY_COUNT ∧
  history_pos w < USH_MAX_HISTORY_COUNT.

(** What [add_to_history_util] stores for a line. *)
Definition entry_of (line : list ascii) : block :=
  Block (strlen line * 1) (cstr line ++ [NUL]).

(** The ring after [n] records, in visiting order: the unused slots, then
    the last 20 entries, oldest first. *)
Definition ring_after (entries : list block) : list (option block) :=
  replicate (20 - length entries) None
  ++ map Some (drop (length entries - 20) entries).

(** A 64-bit machine whose allocator grants every request, with a path
    limit of 4096 and a shell that is the parent of every [fork]; a string
    read that runs off the end of a history entry finds a terminator at
    once. *)
Definition os64 : os_env :=
  OsEnv 8 (λ _, true) 4096 None (λ _ d, inr d) (λ _, ForkParent 0)
        (λ _, inr 0%Z) (λ _, lit "error") (λ _ _, []).

(** The same machine with a path limit of 512. *)
Definition os64_short_paths : os_env :=
  OsEnv 8 (λ _, true) 512 None (λ _ d, inr d) (λ _, ForkParent 0)
        (λ _, inr 0%Z) (λ _, lit "error") (λ _ _, []).

(** The same machine with an allocator that packs the history entries:
    behind an entry of 24 bytes comes, once the entry of the next slot has
    been allocated, the header of that entry's block, and its first byte
    reads as the character [!]. *)
Definition os64_packed : os_env :=
  OsEnv 8 (λ _, true) 4096 None (λ _ d, inr d) (λ _, ForkParent 0)
        (λ _, inr 0%Z) (λ _, lit "error")
        (λ slots i,
           match slots !! i, slots !! S i with
           | Some (Some entry), Some (Some _) =>
               if blk_size entry =? 24 then lit "!" else []
           | _, _ => []
           end).



(** The world when [ush_loop] is entered, with the given lines waiting on
    standard input. *)
Definition session (input : list (list ascii)) : world :=
  World (replicate USH_MAX_HISTORY_COUNT None) 0 input [] [] (lit "/") [] [].

(** A typed line: the text and its newline. *)
Definition typed (s : string) : list ascii := lit s ++ [LF].

(** A line of 64 one-letter tokens. *)
Definition line64 : list ascii := concat (replicate 64 (lit "a ")) ++ [LF].

(** A computation that never writes [history_str] or [history_pos]. *)
Definition keeps_history {A} (m : sh A) : Prop :=
  ∀ w a w', m w = Ret a w' →
            history_str w' = history_str w ∧ history_pos w' = history_pos w.

(** ** Frames: what a computation leaves as it was *)

(** Every returning run of [m] relates the world before to the world
    after by [R]. *)
Definition preserves {A} (R : world → world → Prop) (m : sh A) : Prop :=
  ∀ w a w', m w = Ret a w' → R w w'.

(** A relation that holds across the writes every part of the shell
    makes: appending to a stream or to one of the two logs. *)
Record frame (R : world → world → Prop) : Prop := Frame {
  frame_refl : ∀ w, R w w;
  frame_trans : ∀ w1 w2 w3, R w1 w2 → R w2 w3 → R w1 w3;
  frame_stdout : ∀ w s, R w (set_stdout (w_stdout w ++ s) w);
  frame_stderr : ∀ w s, R w (set_stderr (w_stderr w ++ s) w);
  frame_heap : ∀ w h, R w (set_heap (w_heap w ++ h) w);
  frame_oob : ∀ w v, R w (set_oob (w_oob w ++ v) w)
}.

Definition stdout_grows (w w' : world) : Prop :=
  ∃ s, w_stdout w' = w_stdout w ++ s.
Definition stderr_grows (w w' : world) : Prop :=
  ∃ s, w_stderr w' = w_stderr w ++ s.
Definition same_stdin (w w' : world) : Prop := w_stdin w' = w_stdin w.
Definition same_cwd (w w' : world) : Prop := w_cwd w' = w_cwd w.
Definition same_history (w w' : world) : Prop :=
  history_str w' = history_str w ∧ history_pos w' = history_pos w.
Definition keeps_wf (w w' : world) : Prop := history_wf w → history_wf w'.

(** The buffer [line'] is [line] with terminators written over some of
    its delimiters. *)
Definition cut (line line' : list ascii) : Prop :=
  length line' = length line ∧
  ∀ i, line' !! i = line !! i ∨
       (line' !! i = Some NUL ∧ ∃ c, line !! i = Some c ∧ delim_char c).

(** A string that can be a token: not empty, no delimiter, no terminator. *)
Definition token (t : list ascii) : Prop := t ≠ [] ∧ Forall word_char t.

(** The texts the shell prints. *)
Definition echo_text (args : list (list ascii)) : list ascii :=
  concat (map (λ arg, cstr arg ++ lit " ") args) ++ [LF].

Definition help_text : list ascii :=
  lit "Aditya Narad's Linux Shell" ++ [LF]
  ++ lit "How to Use Shell: Type the commands followed by arguments(if any) and press Enter." ++ [LF]
  ++ lit "Following are the builtin commands :" ++ [LF]
  ++ concat (map (λ name, [TAB] ++ name ++ [LF]) builtin_str).

Definition prompt_text : list ascii := [LF] ++ lit "> ".



Definition allocation_error_text : list ascii :=
  lit "ush: allocation error" ++ [LF].

Create HintDb keeps.

(** * Basic facts *)

Lemma set_stdout_id w : set_stdout (w_stdout w) w = w.
Proof. by destruct w. Qed.

Lemma is_nul_true c : is_nul c = true ↔ c = NUL.
Proof. unfold is_nul. apply Ascii.eqb_eq. Qed.

Lemma delim_nonnul c : delim_char c → nonnul c.
Proof.
  unfold delim_char, nonnul. intros H.
  destruct (is_nul c) eqn:E; [|done].
  apply is_nul_true in E. subst c. vm_compute in H. discriminate.
Qed.

Lemma strlen_le s : strlen s ≤ length s.
Proof. induction s as [|c s IH]; simpl; [lia|]. destruct (is_nul c); simpl; lia. Qed.

Lemma length_cstr s : length (cstr s) = strlen s.
Proof. unfold cstr. rewrite length_take. pose proof (strlen_le s). lia. Qed.

Lemma strlen_app_nonnul a b :
  Forall nonnul a → strlen (a ++ b) = length a + strlen b.
Proof.
  induction 1 as [|c a Hc _ IH]; simpl; [done|].
  unfold nonnul in Hc. rewrite Hc, IH. done.
Qed.

Lemma cstr_app_nonnul a b : Forall nonnul a → cstr (a ++ b) = a ++ cstr b.
Proof.
  intros H. unfold cstr. rewrite strlen_app_nonnul by done.
  rewrite take_app_add'; done.
Qed.

Lemma strlen_at_end r : at_end r → strlen r = 0.
Proof.
  unfold at_end, char_at. destruct r as [|c r]; simpl; [done|].
  intros ->. done.
Qed.

Lemma cstr_at_end r : at_end r → cstr r = [].
Proof. intros H. unfold cstr. rewrite strlen_at_end; done. Qed.

Lemma cstr_nonnul_end a r : Forall nonnul a → at_end r → cstr (a ++ r) = a.
Proof.
  intros Ha Hr. rewrite cstr_app_nonnul, cstr_at_end, app_nil_r; done.
Qed.

Lemma char_at_drop buf n : char_at (drop n buf) 0 = char_at buf n.
Proof.
  unfold char_at. revert n. induction buf as [|c buf IH]; intros [|n]; simpl; auto.
Qed.

(** Writing a terminator at or after the end of a C string leaves the
    string as it was. *)
Lemma cstr_insert_nul l e : strlen l ≤ e → cstr (<[e := NUL]> l) = cstr l.
Proof.
  unfold cstr. revert e. induction l as [|c l IH]; intros e He; [done|].
  destruct e as [|e]; simpl in *.
  - destruct (is_nul c) eqn:E; [done | lia].
  - destruct (is_nul c) eqn:E; [done|]. simpl. f_equal. apply IH. lia.
Qed.

Lemma cstr_drop_insert_nul buf off e :
  strlen (drop off buf) + off ≤ e →
  cstr (drop off (<[e := NUL]> buf)) = cstr (drop off buf).
Proof.
  intros H. rewrite drop_insert_ge by lia. apply cstr_insert_nul. lia.
Qed.

(** The spec-side splitter on runs of delimiters and words. *)

Lemma word_char_nonnul t : Forall word_char t → Forall nonnul t.
Proof. intros H. eapply Forall_impl; [exact H|]. by intros c [_ ?]. Qed.

Lemma delim_run_nonnul d : Forall delim_char d → Forall nonnul d.
Proof. intros H. eapply Forall_impl; [exact H|]. apply delim_nonnul. Qed.

Lemma word_char_nondelim t : Forall word_char t → Forall nondelim_char t.
Proof. intros H. eapply Forall_impl; [exact H|]. by intros c [? _]. Qed.

Lemma tokens_acc_word t cur r :
  Forall nondelim_char t →
  tokens_acc cur (t ++ r) = tokens_acc (rev t ++ cur) r.
Proof.
  intros H. revert cur. induction H as [|c t Hc _ IH]; intros cur; [done|].
  simpl. unfold nondelim_char in Hc. rewrite Hc, IH. by rewrite <- app_assoc.
Qed.

Lemma tokens_of_delims d r :
  Forall delim_char d → tokens_of (d ++ r) = tokens_of r.
Proof.
  unfold tokens_of. induction 1 as [|c d Hc _ IH]; [done|].
  simpl. unfold delim_char in Hc. by rewrite Hc.
Qed.

Lemma tokens_of_all_delims d : Forall delim_char d → tokens_of d = [].
Proof. intros H. rewrite <- (app_nil_r d). by rewrite tokens_of_delims. Qed.

Lemma emit_rev t rest : t ≠ [] → emit (rev t) rest = t :: rest.
Proof.
  intros Ht. unfold emit. destruct (rev t) eqn:E.
  - apply (f_equal (@rev ascii)) in E. rewrite rev_involutive in E. done.
  - by rewrite <- E, rev_involutive.
Qed.

Lemma tokens_of_word t : Forall nondelim_char t → t ≠ [] → tokens_of t = [t].
Proof.
  intros H Ht. unfold tokens_of. rewrite <- (app_nil_r t) at 1.
  rewrite tokens_acc_word, app_nil_r by done. simpl. by apply emit_rev.
Qed.

Lemma tokens_of_word_delim t c r :
  Forall nondelim_char t → t ≠ [] → delim_char c →
  tokens_of (t ++ c :: r) = t :: tokens_of r.
Proof.
  intros H Ht Hc. unfold tokens_of.
  rewrite tokens_acc_word, app_nil_r by done. simpl.
  unfold delim_char in Hc. rewrite Hc. by apply emit_rev.
Qed.

(** [strspn] and [strcspn] against the delimiter set. *)

Lemma strspn_le r : strspn r USH_TOK_DELIM ≤ length r.
Proof.
  induction r as [|c r IH]; cbn [strspn strcspn length]; [lia|].
  repeat case_match; lia.
Qed.

Lemma strcspn_le r : strcspn r USH_TOK_DELIM ≤ length r.
Proof.
  induction r as [|c r IH]; cbn [strspn strcspn length]; [lia|].
  repeat case_match; lia.
Qed.

Lemma strspn_spec r :
  Forall delim_char (take (strspn r USH_TOK_DELIM) r) ∧
  (at_end (drop (strspn r USH_TOK_DELIM) r) ∨
   is_delim (char_at (drop (strspn r USH_TOK_DELIM) r) 0) = false).
Proof.
  induction r as [|c r [IH1 IH2]]; simpl.
  - split; [constructor | by left].
  - destruct (is_nul c) eqn:En; simpl.
    + split; [constructor | by left].
    + destruct (mem_char c USH_TOK_DELIM) eqn:Ed; simpl.
      * split; [by constructor | done].
      * split; [constructor | by right].
Qed.

Lemma strcspn_spec r :
  Forall word_char (take (strcspn r USH_TOK_DELIM) r) ∧
  (at_end (drop (strcspn r USH_TOK_DELIM) r) ∨
   delim_char (char_at (drop (strcspn r USH_TOK_DELIM) r) 0)).
Proof.
  induction r as [|c r [IH1 IH2]]; simpl.
  - split; [constructor | by left].
  - destruct (is_nul c) eqn:En; simpl.
    + split; [constructor | by left].
    + destruct (mem_char c USH_TOK_DELIM) eqn:Ed; simpl.
      * split; [constructor | by right].
      * split; [by constructor | done].
Qed.

Lemma strcspn_pos r :
  ¬ at_end r → is_delim (char_at r 0) = false → 0 < strcspn r USH_TOK_DELIM.
Proof.
  unfold at_end, char_at, is_delim. destruct r as [|c r]; simpl; [done|].
  intros Hn Hd. destruct (is_nul c); [done|]. rewrite Hd. lia.
Qed.

Lemma not_at_end_length r : ¬ at_end r → 0 < length r.
Proof. unfold at_end, char_at. destruct r; simpl; [done | lia]. Qed.

(** What one call of [strtok] does to the buffer and to the rest of the
    tokenization. *)
Lemma strtok_spec buf s tok buf' s' :
  strtok buf s USH_TOK_DELIM = (tok, buf', s') →
  length buf' = length buf ∧ s ≤ s' ∧
  (∀ off, strlen (drop off buf) + off ≤ s →
          cstr (drop off buf') = cstr (drop off buf)) ∧
  match tok with
  | None => buf' = buf ∧ tokens_of (cstr (drop s buf)) = []
  | Some t =>
      s ≤ t ∧ t < s' ∧ t < length buf ∧ strlen (drop t buf') + t ≤ s' ∧
      tokens_of (cstr (drop s buf))
      = cstr (drop t buf') :: tokens_of (cstr (drop s' buf')) ∧
      take t buf' = take t buf ∧
      Forall delim_char (take (t - s) (drop s buf)) ∧
      cstr (drop t buf') = take (strlen (drop t buf')) (drop t buf)
  end.
Proof.
  unfold strtok.
  destruct (strspn_spec (drop s buf)) as [Hd Hr1].
  pose proof (strspn_le (drop s buf)) as Hn1.
  set (n1 := strspn (drop s buf) USH_TOK_DELIM) in *.
  pose proof (take_drop n1 (drop s buf)) as Er.
  rewrite drop_drop in Er, Hr1.
  set (d := take n1 (drop s buf)) in *.
  rewrite <- (char_at_drop buf (s + n1)).
  destruct (is_nul (char_at (drop (s + n1) buf) 0)) eqn:E1.
  { intros [= <- <- <-]. repeat split; try lia.
    rewrite <- Er, cstr_nonnul_end; auto using delim_run_nonnul.
    by apply tokens_of_all_delims. }
  destruct Hr1 as [Hr1|Hr1]; [unfold at_end in Hr1; congruence|].
  assert (Hne : ¬ at_end (drop (s + n1) buf))
    by (unfold at_end; congruence).
  destruct (strcspn_spec (drop (s + n1) buf)) as [Hw Hr2].
  pose proof (strcspn_le (drop (s + n1) buf)) as Hn2.
  pose proof (strcspn_pos _ Hne Hr1) as Hpos.
  pose proof (not_at_end_length _ Hne) as Hlen.
  set (n2 := strcspn (drop (s + n1) buf) USH_TOK_DELIM) in *.
  pose proof (take_drop n2 (drop (s + n1) buf)) as Et.
  rewrite drop_drop in Et, Hr2.
  set (t := take n2 (drop (s + n1) buf)) in *.
  assert (Hlt : length t = n2) by (unfold t; rewrite length_take; lia).
  assert (Htne : t ≠ []) by (intros Ht; rewrite Ht in Hlt; simpl in Hlt; lia).
  rewrite length_drop in Hlen, Hn2.
  assert (Hdel : Forall delim_char (take (s + n1 - s) (drop s buf)))
    by (replace (s + n1 - s) with n1 by lia; done).
  rewrite <- (char_at_drop buf (s + n1 + n2)).
  destruct (is_nul (char_at (drop (s + n1 + n2) buf) 0)) eqn:E2.
  { intros [= <- <- <-]. repeat split; try lia; try done.
    - rewrite <- Et, strlen_app_nonnul, strlen_at_end, Hlt;
        auto using word_char_nonnul. lia.
    - rewrite <- Er, <- Et.
      rewrite cstr_app_nonnul, !cstr_nonnul_end, cstr_at_end;
        auto using word_char_nonnul, delim_run_nonnul.
      rewrite tokens_of_delims by done.
      by apply tokens_of_word; [apply word_char_nondelim|]. }
  destruct Hr2 as [Hr2|Hr2]; [unfold at_end in Hr2; congruence|].
  destruct (drop (s + n1 + n2) buf) as [|c r3] eqn:Er3;
    [unfold char_at in E2; simpl in E2; discriminate|].
  unfold char_at in Hr2; simpl in Hr2.
  assert (He : s + n1 + n2 < length buf).
  { apply (f_equal length) in Er3. rewrite length_drop in Er3. simpl in Er3. lia. }
  assert (Edrop : drop (s + n1) (<[s + n1 + n2 := NUL]> buf) = t ++ NUL :: r3).
  { rewrite drop_insert_ge by lia. rewrite <- Et.
    replace (s + n1 + n2 - (s + n1)) with (length t + 0) by lia.
    by rewrite insert_app_r. }
  intros [= <- <- <-]. rewrite length_insert. repeat split; try lia; try done.
  5:{ rewrite Edrop, cstr_nonnul_end by (auto using word_char_nonnul; done).
      rewrite strlen_app_nonnul by auto using word_char_nonnul.
      rewrite <- Et. simpl. by rewrite Nat.add_0_r, take_app_length. }
  4:{ apply take_insert_ge. lia. }
  - intros off Hoff. apply cstr_drop_insert_nul. lia.
  - rewrite Edrop, strlen_app_nonnul by auto using word_char_nonnul.
    simpl. lia.
  - rewrite Edrop, cstr_nonnul_end by (auto using word_char_nonnul; done).
    rewrite drop_insert_lt by lia.
    rewrite <- Er, <- Et.
    rewrite !cstr_app_nonnul by auto using word_char_nonnul, delim_run_nonnul.
    rewrite tokens_of_delims by done.
    replace (drop (S (s + n1 + n2)) buf) with r3.
    2:{ change (S (s + n1 + n2)) with (1 + (s + n1 + n2)).
        rewrite Nat.add_comm, <- drop_drop, Er3. done. }
    unfold cstr at 1. simpl. pose proof (delim_nonnul _ Hr2) as Hc.
    unfold nonnul in Hc. rewrite Hc. simpl.
    by apply tokens_of_word_delim; [apply word_char_nondelim| |].
Qed.

(** [tokens_of] is the one tokenization of a text. *)

Lemma tokenization_unique s toks : tokenization s toks → toks = tokens_of s.
Proof.
  induction 1 as [d Hd|d t Hd Ht Hw|d t c rest toks Hd Ht Hw Hc _ IH].
  - by rewrite tokens_of_all_delims.
  - by rewrite tokens_of_delims, tokens_of_word.
  - by rewrite tokens_of_delims, tokens_of_word_delim, IH.
Qed.

Lemma span_delims s :
  ∃ d r, s = d ++ r ∧ Forall delim_char d ∧
         (r = [] ∨ ∃ c r', r = c :: r' ∧ nondelim_char c).
Proof.
  induction s as [|c s (d & r & -> & Hd & Hr)].
  - exists [], []. split; [done|]. split; [constructor | by left].
  - destruct (is_delim c) eqn:E.
    + exists (c :: d), r. split; [done|]. split; [by constructor | done].
    + exists [], (c :: d ++ r). split; [done|]. split; [constructor|].
      right. by exists c, (d ++ r).
Qed.

Lemma span_word s :
  ∃ t r, s = t ++ r ∧ Forall nondelim_char t ∧
         (r = [] ∨ ∃ c r', r = c :: r' ∧ delim_char c) ∧
         (∀ c s', s = c :: s' → nondelim_char c → t ≠ []).
Proof.
  induction s as [|c s (t & r & -> & Ht & Hr & _)].
  - exists [], []. split; [done|]. split; [constructor|]. split; [by left|].
    by intros.
  - destruct (is_delim c) eqn:E.
    + exists [], (c :: t ++ r). split; [done|]. split; [constructor|].
      split; [right; by exists c, (t ++ r)|].
      intros ?? [= <- <-] Hc. unfold nondelim_char in Hc. congruence.
    + exists (c :: t), r. split; [done|]. split; [by constructor|].
      split; [done|]. by intros.
Qed.

Lemma tokens_of_tokenization s : tokenization s (tokens_of s).
Proof.
  remember (length s) as n eqn:Hn. revert s Hn.
  induction n as [n IH] using lt_wf_ind. intros s ->.
  destruct (span_delims s) as (d & r & -> & Hd & [->|(c & r' & -> & Hc)]).
  { rewrite app_nil_r, tokens_of_all_delims by done. by constructor. }
  destruct (span_word (c :: r')) as (t & r2 & Et & Ht & Hr2 & Hne).
  specialize (Hne c r' eq_refl Hc). rewrite Et.
  destruct Hr2 as [->|(c2 & rest & -> & Hc2)].
  { rewrite app_nil_r, tokens_of_delims, tokens_of_word by done. by constructor. }
  rewrite tokens_of_delims, tokens_of_word_delim by done.
  constructor; try done.
  apply (IH (length rest)); [|done].
  apply (f_equal length) in Et. rewrite !length_app in *. simpl in *.
  destruct t; [done|]. simpl in *. lia.
Qed.

(** ** The tokenizer loop *)

Ltac sh_unfold :=
  unfold mbind, sh_mbind, mret, sh_mret, sh_bind, sh_ret, modify, get_world,
    exit, unfinished in *.

Lemma args_of_texts line offs rest :
  args_of line (map Tok offs ++ Null :: rest) = texts line offs.
Proof. induction offs as [|o offs IH]; simpl; [done|]. by rewrite IH. Qed.

Lemma args_of_texts_all line offs : args_of line (map Tok offs) = texts line offs.
Proof. induction offs as [|o offs IH]; simpl; [done|]. by rewrite IH. Qed.

Lemma write_at_end v l : write_at (length l) v l = l ++ [v].
Proof.
  unfold write_at. rewrite Nat.ltb_irrefl, Nat.sub_diag. done.
Qed.

Lemma write_at_offs v offs :
  write_at (length offs) v (map Tok offs) = map Tok offs ++ [v].
Proof. rewrite <- (length_map Tok offs) at 1. apply write_at_end. Qed.

Lemma strtok_step fuel line save t tok' line1 save1 :
  strtok line save USH_TOK_DELIM = (tok', line1, save1) →
  tok_ok (S fuel) line save (Some t) →
  tok_ok fuel line1 save1 tok' ∧
  length line1 = length line ∧ save ≤ save1 ∧
  cstr (drop t line1) = cstr (drop t line) ∧
  remaining line save (Some t)
  = cstr (drop t line) :: remaining line1 save1 tok' ∧
  (∀ off, strlen (drop off line) + off ≤ save →
          cstr (drop off line1) = cstr (drop off line) ∧
          strlen (drop off line1) + off ≤ save1).
Proof.
  intros Est (Hts & Htl & Hfuel & Hstr).
  apply strtok_spec in Est as (Hlen & Hle & Hstab & Htok).
  assert (Hkeep : ∀ off, strlen (drop off line) + off ≤ save →
            cstr (drop off line1) = cstr (drop off line) ∧
            strlen (drop off line1) + off ≤ save1).
  { intros off Hoff. pose proof (Hstab off Hoff) as E. split; [done|].
    rewrite <- length_cstr, E, length_cstr. lia. }
  repeat split; auto; try apply Hkeep; auto.
  - destruct tok' as [t'|]; simpl; [|done].
    destruct Htok as (? & ? & ? & ? & _). repeat split; lia.
  - simpl. f_equal. destruct tok' as [t'|]; simpl.
    + by destruct Htok as (_ & _ & _ & _ & -> & _).
    + by destruct Htok as (_ & ->).
Qed.

Section TokenizerLoop.
Context (os : os_env).

Lemma store_slot_in a i v w :
  S i * sizeof_ptr os ≤ ta_cap a →
  store_slot os a i v w
  = Ret (TokArray (ta_cap a) (write_at i v (ta_slots a))) w.
Proof.
  intros H. unfold store_slot.
  destruct (Nat.leb_spec (S i * sizeof_ptr os) (ta_cap a)); [done | lia].
Qed.

Lemma split_loop_None fuel line save a bufsize pos w :
  split_loop os fuel line save None a bufsize pos w
  = match store_slot os a pos Null w with
    | Ret a1 w1 => Ret (a1, line) w1
    | Exit c w1 => Exit c w1
    | Unfinished => Unfinished
    end.
Proof. by destruct fuel. Qed.

Lemma split_loop_Some fuel line save t a bufsize pos w :
  split_loop os (S fuel) line save (Some t) a bufsize pos w
  = match store_slot os a pos (Tok t) w with
    | Ret a1 w1 =>
        match grow_if_full os a1 bufsize (S pos) w1 with
        | Ret (a2, bufsize2) w2 =>
            let '(token, line, save) := strtok line save USH_TOK_DELIM in
            split_loop os fuel line save token a2 bufsize2 (S pos) w2
        | Exit c w2 => Exit c w2
        | Unfinished => Unfinished
        end
    | Exit c w1 => Exit c w1
    | Unfinished => Unfinished
    end.
Proof.
  cbn [split_loop]. unfold sh_bind.
  destruct (store_slot os a pos (Tok t) w) as [a1 w1| |]; [|done..].
  destruct (grow_if_full os a1 bufsize (S pos) w1) as [[a2 b2] w2| |]; [|done..].
  by destruct (strtok line save USH_TOK_DELIM) as [[? ?] ?].
Qed.

Lemma grow_if_full_not a bufsize pos w :
  pos ≠ bufsize → grow_if_full os a bufsize pos w = Ret (a, bufsize) w.
Proof.
  intros H. unfold grow_if_full.
  destruct (Nat.eqb_spec pos bufsize); [done | done].
Qed.

Lemma store_slot_out a i v w :
  ta_cap a < S i * sizeof_ptr os →
  store_slot os a i v w
  = Ret a (set_oob (w_oob w ++ [StoreOutOfBounds i (ta_cap a)]) w).
Proof.
  intros H. unfold store_slot.
  destruct (Nat.leb_spec (S i * sizeof_ptr os) (ta_cap a)); [lia | done].
Qed.

(** While fewer than 64 slots are needed, every store lands in the array
    obtained from the first [malloc] and the loop delivers the remaining
    tokens. *)
Lemma split_loop_small fuel : ∀ line save token offs w,
  (∀ off, off ∈ offs → strlen (drop off line) + off ≤ save) →
  tok_ok fuel line save token →
  length offs + length (remaining line save token) < USH_TOK_BUFSIZE →
  ∃ offs' line',
    split_loop os fuel line save token
      (TokArray (sizeof_ptr os * USH_TOK_BUFSIZE) (map Tok offs))
      USH_TOK_BUFSIZE (length offs) w
    = Ret (TokArray (sizeof_ptr os * USH_TOK_BUFSIZE) (map Tok offs' ++ [Null]),
           line') w ∧
    texts line' offs' = texts line offs ++ remaining line save token ∧
    length line' = length line ∧
    (∀ off, strlen (drop off line) + off ≤ save →
            cstr (drop off line') = cstr (drop off line)).
Proof.
  assert (Hnone : ∀ fuel line save offs w,
    length offs < USH_TOK_BUFSIZE →
    split_loop os fuel line save None
      (TokArray (sizeof_ptr os * USH_TOK_BUFSIZE) (map Tok offs))
      USH_TOK_BUFSIZE (length offs) w
    = Ret (TokArray (sizeof_ptr os * USH_TOK_BUFSIZE) (map Tok offs ++ [Null]),
           line) w).
  { intros f line save offs w Hlt. rewrite split_loop_None.
    rewrite store_slot_in by (simpl; unfold USH_TOK_BUFSIZE in *; nia).
    cbn [ta_cap ta_slots].
    by rewrite write_at_offs. }
  induction fuel as [|fuel IH]; intros line save token offs w Hoffs Htok Hcount.
  - destruct token as [t|].
    + destruct Htok as (_ & ? & ? & _). lia.
    + exists offs, line. rewrite Hnone by (simpl in Hcount; lia).
      simpl. by rewrite app_nil_r.
  - destruct token as [t|].
    2:{ exists offs, line. rewrite Hnone by (simpl in Hcount; lia).
        simpl. by rewrite app_nil_r. }
    destruct (strtok line save USH_TOK_DELIM) as [[tok' line1] save1] eqn:Est.
    destruct (strtok_step _ _ _ _ _ _ _ Est Htok)
      as (Htok' & Hlen & Hle & Ht & Hrem & Hkeep).
    rewrite Hrem in *. simpl in Hcount.
    destruct (IH line1 save1 tok' (offs ++ [t]) w)
      as (offs' & line' & Hrun & Htx & Hl' & Hst').
    { intros off [Hin|Hin]%elem_of_app.
      - by apply Hkeep, Hoffs.
      - apply list_elem_of_singleton in Hin as ->. apply Hkeep.
        by destruct Htok as (_ & _ & _ & ?). }
    { done. }
    { rewrite length_app. simpl. lia. }
    exists offs', line'. split; [|split; [|split; [lia|]]].
    3:{ intros off Hoff. destruct (Hkeep off Hoff) as [E1 E2].
        by rewrite Hst', E1. }
    + rewrite split_loop_Some.
      rewrite store_slot_in by (simpl; unfold USH_TOK_BUFSIZE in *; nia).
      cbn [ta_cap ta_slots].
      rewrite write_at_offs.
      rewrite grow_if_full_not by lia. rewrite Est.
      rewrite length_app, map_app in Hrun. simpl in Hrun.
      rewrite Nat.add_1_r in Hrun. exact Hrun.
    + rewrite Htx. unfold texts. rewrite map_app, <- app_assoc. simpl.
      f_equal.
      * apply map_ext_in. intros off Hin. apply Hkeep, Hoffs.
        by apply list_elem_of_In.
      * by rewrite Ht.
Qed.

Lemma malloc_granted n w :
  alloc_ok os n = true → malloc os n w = Ret true (set_heap (w_heap w ++ [n]) w).
Proof. intros H. unfold malloc. by rewrite H. Qed.

Lemma malloc_refused n w : alloc_ok os n = false → malloc os n w = Ret false w.
Proof. intros H. unfold malloc. by rewrite H. Qed.

(** The first call of [strtok] sets the loop up. *)
Lemma strtok_first line tok line1 save1 :
  strtok line 0 USH_TOK_DELIM = (tok, line1, save1) →
  tok_ok (length line1) line1 save1 tok ∧
  remaining line1 save1 tok = tokens_of (cstr line) ∧
  length line1 = length line ∧
  (tok = None → line1 = line) ∧
  (∀ t, tok = Some t →
        strlen line1 ≤ save1 ∧
        ∃ n, cstr line1 = take t line ++ take n (drop t line) ∧
             Forall delim_char (take t line) ∧
             cstr (drop t line1) = take n (drop t line)).
Proof.
  intros Est. apply strtok_spec in Est as (Hlen & _ & _ & Htok).
  rewrite drop_0 in Htok. destruct tok as [t|]; simpl.
  - destruct Htok as (_ & Hts & Htl & Hstr & -> & Htake & Hdel & Htxt).
    rewrite Nat.sub_0_r in Hdel.
    assert (Ecstr : cstr line1 = take t line ++ cstr (drop t line1)).
    { rewrite <- (take_drop t line1) at 1. rewrite Htake.
      apply cstr_app_nonnul. by apply delim_run_nonnul. }
    split_and!; auto; try lia; try done.
    intros t' [= <-]. split.
    + rewrite <- length_cstr, Ecstr, length_app, length_cstr, length_take. lia.
    + exists (strlen (drop t line1)). by rewrite Ecstr, Htxt.
  - destruct Htok as (-> & ->). split_and!; auto. by intros.
Qed.

(** A line with fewer than 64 tokens: the array holds the offsets of
    exactly the tokens of the specification, then the null sentinel, and
    nothing but the first [malloc] touches the world. Read as a C string
    from its start, the buffer now ends with the first token. *)
Lemma ush_split_line_small line w :
  alloc_ok os (sizeof_ptr os * USH_TOK_BUFSIZE) = true →
  length (tokens_of (cstr line)) < USH_TOK_BUFSIZE →
  ∃ offs line',
    ush_split_line os line w
    = Ret (TokArray (sizeof_ptr os * USH_TOK_BUFSIZE) (map Tok offs ++ [Null]),
           line')
          (set_heap (w_heap w ++ [sizeof_ptr os * USH_TOK_BUFSIZE]) w) ∧
    args_of line' (map Tok offs ++ [Null]) = tokens_of (cstr line) ∧
    length line' = length line ∧
    (∀ t1 ts, tokens_of (cstr line) = t1 :: ts →
       ∃ d rest, line = d ++ t1 ++ rest ∧ Forall delim_char d ∧
                 cstr line' = d ++ t1).
Proof.
  intros Halloc Hcount. unfold ush_split_line, sh_bind.
  rewrite malloc_granted by done. cbn [negb].
  destruct (strtok line 0 USH_TOK_DELIM) as [[tok line1] save1] eqn:Est.
  apply strtok_first in Est as (Htok & Hrem & Hlen & _ & Hfirst).
  destruct (split_loop_small (length line1) line1 save1 tok []
              (set_heap (w_heap w ++ [sizeof_ptr os * USH_TOK_BUFSIZE]) w))
    as (offs & line' & Hrun & Htx & Hl' & Hst).
  { intros off Hin. by apply elem_of_nil in Hin. }
  { done. }
  { rewrite Hrem. simpl. lia. }
  exists offs, line'. split; [exact Hrun|].
  split; [rewrite args_of_texts, Htx; simpl; by rewrite Hrem|].
  split; [lia|].
  intros t1 ts Htoks. rewrite Htoks in Hrem.
  destruct tok as [t|]; [|discriminate].
  destruct (Hfirst t eq_refl) as (Hsave & n & Ecstr & Hdel & Etxt).
  simpl in Hrem. injection Hrem as E1 _. rewrite Etxt in E1.
  exists (take t line), (drop n (drop t line)). split; [|split; [done|]].
  - rewrite <- E1, take_drop, take_drop. done.
  - rewrite <- (drop_0 line'), Hst, drop_0 by (rewrite drop_0; lia).
    by rewrite Ecstr, E1.
Qed.

(** The tokenizer against the specification: for a line with fewer than
    64 tokens what [args] shows is the tokenization of the text. *)
Lemma ush_split_line_tokenization line w :
  alloc_ok os (sizeof_ptr os * USH_TOK_BUFSIZE) = true →
  length (tokens_of (cstr line)) < USH_TOK_BUFSIZE →
  ∃ tokens line' w',
    ush_split_line os line w = Ret (tokens, line') w' ∧
    tokenization (cstr line) (args_of line' (ta_slots tokens)) ∧
    last (ta_slots tokens) = Some Null ∧
    w_oob w' = w_oob w.
Proof.
  intros Halloc Hcount.
  destruct (ush_split_line_small line w Halloc Hcount)
    as (offs & line' & Hrun & Hargs & _).
  eexists _, _, _. split; [exact Hrun|]. cbn [ta_slots].
  split; [rewrite Hargs; apply tokens_of_tokenization|].
  split; [apply last_snoc | done].
Qed.

Lemma oob_extends_refl w : oob_extends w w.
Proof. exists []. by rewrite app_nil_r. Qed.

Lemma oob_extends_trans w1 w2 w3 :
  oob_extends w1 w2 → oob_extends w2 w3 → oob_extends w1 w3.
Proof.
  intros [v1 H1] [v2 H2]. exists (v1 ++ v2). by rewrite H2, H1, app_assoc.
Qed.

Lemma store_slot_returns a i v w :
  ∃ a' w', store_slot os a i v w = Ret a' w' ∧ oob_extends w w'.
Proof.
  unfold store_slot. destruct (_ <=? _).
  - eexists _, _. split; [done | apply oob_extends_refl].
  - eexists _, _. split; [done|]. by exists [StoreOutOfBounds i (ta_cap a)].
Qed.

Lemma grow_if_full_returns a bufsize pos w :
  (∀ n, alloc_ok os n = true) →
  ∃ a' b' w', grow_if_full os a bufsize pos w = Ret (a', b') w' ∧
              oob_extends w w'.
Proof.
  intros Halloc. unfold grow_if_full. destruct (pos =? bufsize).
  - unfold realloc_tokens, realloc, sh_bind. rewrite malloc_granted by done.
    eexists _, _, _. split; [done|]. exists []. by rewrite app_nil_r.
  - eexists _, _, _. split; [done | apply oob_extends_refl].
Qed.

(** With an allocator that grants every request the loop returns. *)
Lemma split_loop_returns fuel : ∀ line save token a bufsize pos w,
  (∀ n, alloc_ok os n = true) →
  tok_ok fuel line save token →
  ∃ r w', split_loop os fuel line save token a bufsize pos w = Ret r w' ∧
          oob_extends w w'.
Proof.
  induction fuel as [|fuel IH]; intros line save token a bufsize pos w Halloc Htok.
  - destruct token as [t|].
    + destruct Htok as (_ & ? & ? & _). lia.
    + rewrite split_loop_None.
      destruct (store_slot_returns a pos Null w) as (a' & w' & -> & He).
      by eexists _, _.
  - destruct token as [t|].
    2:{ rewrite split_loop_None.
        destruct (store_slot_returns a pos Null w) as (a' & w' & -> & He).
        by eexists _, _. }
    rewrite split_loop_Some.
    destruct (store_slot_returns a pos (Tok t) w) as (a1 & w1 & -> & He1).
    destruct (grow_if_full_returns a1 bufsize (S pos) w1 Halloc)
      as (a2 & b2 & w2 & -> & He2).
    destruct (strtok line save USH_TOK_DELIM) as [[tok' line1] save1] eqn:Est.
    destruct (strtok_step _ _ _ _ _ _ _ Est Htok) as (Htok' & _).
    destruct (IH line1 save1 tok' a2 b2 (S pos) w2 Halloc Htok')
      as (r & w' & -> & He3).
    eexists _, _. split; [done|]. eauto using oob_extends_trans.
Qed.

(** A store at a slot beyond the granted bytes is recorded. *)
Lemma split_loop_store_out fuel line save token a bufsize pos w :
  (∀ n, alloc_ok os n = true) →
  tok_ok fuel line save token →
  ta_cap a < S pos * sizeof_ptr os →
  ∃ r w' vs,
    split_loop os fuel line save token a bufsize pos w = Ret r w' ∧
    w_oob w' = w_oob w ++ StoreOutOfBounds pos (ta_cap a) :: vs.
Proof.
  intros Halloc Htok Hout. destruct token as [t|].
  - destruct fuel as [|fuel]; [destruct Htok as (_ & ? & ? & _); lia|].
    rewrite split_loop_Some, store_slot_out by done.
    destruct (grow_if_full_returns a bufsize (S pos)
                (set_oob (w_oob w ++ [StoreOutOfBounds pos (ta_cap a)]) w) Halloc)
      as (a2 & b2 & w2 & -> & [v2 He2]).
    destruct (strtok line save USH_TOK_DELIM) as [[tok' line1] save1] eqn:Est.
    destruct (strtok_step _ _ _ _ _ _ _ Est Htok) as (Htok' & _).
    destruct (split_loop_returns fuel line1 save1 tok' a2 b2 (S pos) w2 Halloc Htok')
      as (r & w' & -> & [v3 He3]).
    eexists _, _, (v2 ++ v3). split; [done|].
    rewrite He3, He2. simpl. by rewrite <- !app_assoc.
  - rewrite split_loop_None, store_slot_out by done.
    eexists _, _, []. split; [done|]. done.
Qed.

(** From the 64th token on: the array was reallocated to [bufsize] bytes,
    not [bufsize] slots, and a store leaves it. *)
Lemma split_loop_big fuel : ∀ line save token offs w,
  (∀ n, alloc_ok os n = true) →
  2 ≤ sizeof_ptr os →
  (∀ off, off ∈ offs → strlen (drop off line) + off ≤ save) →
  tok_ok fuel line save token →
  length offs < USH_TOK_BUFSIZE →
  USH_TOK_BUFSIZE ≤ length offs + length (remaining line save token) →
  ∃ r w' vs,
    split_loop os fuel line save token
      (TokArray (sizeof_ptr os * USH_TOK_BUFSIZE) (map Tok offs))
      USH_TOK_BUFSIZE (length offs) w = Ret r w' ∧
    w_oob w' = w_oob w ++ StoreOutOfBounds USH_TOK_BUFSIZE (USH_TOK_BUFSIZE * 2) :: vs.
Proof.
  induction fuel as [|fuel IH];
    intros line save token offs w Halloc Hsz Hoffs Htok Hlt Hcount.
  - destruct token as [t|]; [destruct Htok as (_ & ? & ? & _); lia|].
    simpl in Hcount. lia.
  - destruct token as [t|]; [|simpl in Hcount; lia].
    destruct (strtok line save USH_TOK_DELIM) as [[tok' line1] save1] eqn:Est.
    destruct (strtok_step _ _ _ _ _ _ _ Est Htok)
      as (Htok' & Hlen & Hle & Ht & Hrem & Hkeep).
    rewrite Hrem in Hcount. simpl in Hcount.
    rewrite split_loop_Some.
    rewrite store_slot_in by (simpl; unfold USH_TOK_BUFSIZE in *; nia).
    cbn [ta_cap ta_slots].
    rewrite write_at_offs.
    destruct (decide (S (length offs) = USH_TOK_BUFSIZE)) as [Efull|Hnot].
    + unfold grow_if_full. rewrite Efull, Nat.eqb_refl.
      unfold realloc_tokens, realloc, sh_bind.
      rewrite malloc_granted by done. sh_unfold. rewrite Est.
      cbn [ta_slots].
      destruct (split_loop_store_out fuel line1 save1 tok'
        (TokArray (USH_TOK_BUFSIZE * 2)
           (take (USH_TOK_BUFSIZE * 2 / sizeof_ptr os) (map Tok offs ++ [Tok t])))
        (USH_TOK_BUFSIZE * 2) USH_TOK_BUFSIZE
        (set_heap (w_heap w ++ [USH_TOK_BUFSIZE * 2]) w))
        as (r & w' & vs & -> & Hv); [done | done | |].
      { simpl. unfold USH_TOK_BUFSIZE. lia. }
      by eexists _, _, _.
    + rewrite grow_if_full_not by lia. rewrite Est.
      destruct (IH line1 save1 tok' (offs ++ [t]) w) as (r & w' & vs & Hrun & Hv);
        try done.
      { intros off [Hin|Hin]%elem_of_app.
        - by apply Hkeep, Hoffs.
        - apply list_elem_of_singleton in Hin as ->. apply Hkeep.
          by destruct Htok as (_ & _ & _ & ?). }
      { rewrite length_app. simpl. lia. }
      { rewrite length_app. simpl. lia. }
      rewrite length_app, map_app in Hrun. simpl in Hrun.
      rewrite Nat.add_1_r in Hrun. by eexists _, _, _.
Qed.

(** A line with 64 tokens or more, on a machine whose pointers take at
    least two bytes: a store leaves the array. *)
Lemma ush_split_line_big line w :
  (∀ n, alloc_ok os n = true) →
  2 ≤ sizeof_ptr os →
  USH_TOK_BUFSIZE ≤ length (tokens_of (cstr line)) →
  ∃ r w' vs,
    ush_split_line os line w = Ret r w' ∧
    w_oob w' = w_oob w ++ StoreOutOfBounds USH_TOK_BUFSIZE (USH_TOK_BUFSIZE * 2) :: vs.
Proof.
  intros Halloc Hsz Hcount. unfold ush_split_line, sh_bind.
  rewrite malloc_granted by done. cbn [negb].
  destruct (strtok line 0 USH_TOK_DELIM) as [[tok line1] save1] eqn:Est.
  apply strtok_first in Est as (Htok & Hrem & Hlen).
  destruct (split_loop_big (length line1) line1 save1 tok []
              (set_heap (w_heap w ++ [sizeof_ptr os * USH_TOK_BUFSIZE]) w))
    as (r & w' & vs & Hrun & Hv); try done.
  { intros off Hin. by apply elem_of_nil in Hin. }
  { simpl. unfold USH_TOK_BUFSIZE. lia. }
  { rewrite Hrem. simpl. lia. }
  by eexists _, _, _.
Qed.

End TokenizerLoop.

(** ** The history ring *)

Lemma mod20_small x : x < 20 → x mod 20 = x.
Proof. apply Nat.mod_small. Qed.

Lemma mod20_wrap x : 20 ≤ x < 40 → x mod 20 = x - 20.
Proof.
  intros H. replace x with ((x - 20) + 1 * 20) at 1 by lia.
  rewrite Nat.Div0.mod_add. apply Nat.mod_small. lia.
Qed.

Lemma ring_order_lookup {A} pos (slots : list A) j :
  length slots = 20 → pos < 20 → j < 20 →
  ring_order pos slots !! j = slots !! ((pos + j) mod 20).
Proof.
  intros Hlen Hpos Hj. unfold ring_order.
  destruct (decide (j < 20 - pos)) as [Hlt|Hge].
  - rewrite lookup_app_l by (rewrite length_drop; lia).
    rewrite lookup_drop, mod20_small by lia. done.
  - rewrite lookup_app_r by (rewrite length_drop; lia).
    rewrite length_drop, lookup_take_lt by lia.
    rewrite mod20_wrap by lia. f_equal. lia.
Qed.

Lemma ring_order_length {A} pos (slots : list A) :
  length (ring_order pos slots) = length slots.
Proof.
  unfold ring_order. rewrite length_app, length_drop, length_take. lia.
Qed.

(** Storing at the cursor and advancing it moves the oldest slot out and
    the new entry in at the end. *)
Lemma ring_order_push {A} (slots : list A) pos e :
  length slots = 20 → pos < 20 →
  ring_order ((pos + 1) mod 20) (<[pos := e]> slots)
  = tail (ring_order pos slots) ++ [e].
Proof.
  intros Hlen Hpos. unfold ring_order.
  destruct (lookup_lt_is_Some_2 slots pos) as [x Hx]; [lia|].
  rewrite (drop_S slots x pos Hx). cbn [tail app].
  destruct (decide (pos + 1 < 20)) as [Hlt|Hge].
  - rewrite mod20_small by lia.
    rewrite drop_insert_lt by lia.
    rewrite take_insert_lt by lia.
    replace (pos + 1) with (S pos) by lia.
    rewrite (take_S_r slots pos x Hx).
    rewrite insert_app_r_alt by (rewrite length_take; lia).
    rewrite length_take, Nat.min_l, Nat.sub_diag by lia.
    simpl. by rewrite <- app_assoc.
  - replace (pos + 1) with 20 by lia. simpl.
    rewrite drop_0, take_0, app_nil_r.
    rewrite (drop_ge slots (S pos)) by lia. simpl.
    rewrite <- (take_drop pos slots) at 1.
    rewrite (drop_S slots x pos Hx).
    rewrite insert_app_r_alt by (rewrite length_take; lia).
    rewrite length_take, Nat.min_l, Nat.sub_diag by lia.
    simpl. rewrite drop_ge by lia. done.
Qed.

Lemma slot_strings_length os slots :
  length (slot_strings os slots) = length slots.
Proof. unfold slot_strings. by rewrite length_imap. Qed.

Lemma slot_strings_lookup os slots i :
  slot_strings os slots !! i
  = (λ slot, entry_string os slots i <$> slot) <$> slots !! i.
Proof. unfold slot_strings. by rewrite list_lookup_imap. Qed.

(** The listing loop visits the slots in ring order and prints, under
    consecutive numbers, the string read at each slot that is in use. *)
Lemma history_loop_spec os fuel : ∀ j num w,
  history_wf w → j + fuel = 20 → 0 < fuel →
  history_loop os fuel ((history_pos w + j) mod 20) num w
  = Ret tt (set_stdout
      (w_stdout w ++
       history_listing num
         (omap id (drop j (ring_order (history_pos w)
                             (slot_strings os (history_str w))))))
      w).
Proof.
  induction fuel as [|fuel IH]; intros j num w [Hlen Hpos] Hj Hfuel; [lia|].
  unfold USH_MAX_HISTORY_COUNT in *.
  assert (Hi20 : (history_pos w + j) mod 20 < 20)
    by (apply Nat.mod_upper_bound; lia).
  destruct (lookup_lt_is_Some_2 (history_str w) ((history_pos w + j) mod 20))
    as [slot Hslot]; [lia|].
  assert (Hlook :
    ring_order (history_pos w) (slot_strings os (history_str w)) !! j
    = Some (entry_string os (history_str w) ((history_pos w + j) mod 20)
              <$> slot)).
  { rewrite ring_order_lookup by (rewrite ?slot_strings_length; lia).
    by rewrite slot_strings_lookup, Hslot. }
  rewrite (drop_S _ _ j Hlook).
  cbn [history_loop]. sh_unfold. unfold USH_MAX_HISTORY_COUNT.
  rewrite Hslot.
  rewrite Nat.Div0.add_mod_idemp_l.
  destruct (decide (fuel = 0)) as [->|Hne].
  - assert (Ej : j = 19) by lia. subst j.
    rewrite drop_ge by (rewrite ring_order_length, slot_strings_length; lia).
    replace (history_pos w + 19 + 1) with (history_pos w + 1 * 20) by lia.
    rewrite Nat.Div0.mod_add, (mod20_small (history_pos w)) by lia.
    destruct slot as [entry|]; unfold print; sh_unfold;
      cbn [fmap option_fmap option_map omap list_omap id history_listing
           history_pos history_str set_stdout w_stdout];
      rewrite Nat.eqb_refl, ?app_nil_r; [done|].
    by rewrite set_stdout_id.
  - assert (Hi : (history_pos w + j + 1) mod 20 ≠ history_pos w).
    { destruct (decide (history_pos w + j + 1 < 20)).
      - rewrite mod20_small by lia. lia.
      - rewrite mod20_wrap by lia. lia. }
    destruct slot as [entry|]; unfold print; sh_unfold; cbn beta iota.
    + cbn [history_pos history_str set_stdout].
      destruct (Nat.eqb_spec ((history_pos w + j + 1) mod 20) (history_pos w));
        [done|].
      replace (history_pos w + j + 1) with (history_pos w + S j) by lia.
      pose proof (IH (S j) (S num)
                 (set_stdout
                    (w_stdout w ++
                     history_line num
                       (entry_string os (history_str w)
                          ((history_pos w + j) mod 20) entry)) w))
        as H.
      cbn [history_pos history_str w_stdout set_stdout] in H.
      rewrite H by (try split; simpl; auto; lia).
      cbn [fmap option_fmap option_map omap list_omap id history_listing].
      by rewrite <- app_assoc.
    + destruct (Nat.eqb_spec ((history_pos w + j + 1) mod 20) (history_pos w));
        [done|].
      replace (history_pos w + j + 1) with (history_pos w + S j) by lia.
      by rewrite (IH (S j) num w) by (try split; simpl; auto; lia).
Qed.

(** [ush_history] prints the listing and changes nothing else. *)
Lemma ush_history_spec os args w :
  history_wf w →
  ush_history os args w
  = Ret 1%Z (set_stdout (w_stdout w ++ history_text os w) w).
Proof.
  intros Hwf. unfold ush_history. sh_unfold.
  pose proof (history_loop_spec os 20 0 1 w Hwf eq_refl ltac:(lia)) as H.
  rewrite Nat.add_0_r, mod20_small in H by (destruct Hwf; done).
  unfold USH_MAX_HISTORY_COUNT. rewrite H. by rewrite drop_0.
Qed.

Lemma cstr_nonnul s : Forall nonnul (cstr s).
Proof.
  unfold cstr. induction s as [|c s IH]; simpl; [constructor|].
  destruct (is_nul c) eqn:E; simpl; [constructor|]. by constructor.
Qed.

Lemma cstr_terminated s : cstr (cstr s ++ [NUL]) = cstr s.
Proof. apply cstr_nonnul_end; [apply cstr_nonnul | done]. Qed.

Lemma existsb_is_nul_nonnul s : Forall nonnul s → existsb is_nul s = false.
Proof.
  induction 1 as [|c s Hc _ IH]; [done|].
  cbn [existsb]. by rewrite Hc, IH.
Qed.

(** An entry made by [add_to_history_util] has no room for its
    terminator: the string read at it is the text copied and then what
    lies behind the block. *)
Lemma entry_string_entry_of os slots i line :
  entry_string os slots i (entry_of line)
  = cstr line ++ cstr (past_entry os slots i).
Proof.
  unfold entry_string, entry_of. cbn [blk_size blk_bytes].
  rewrite Nat.mul_1_r, <- (length_cstr line), take_app_length.
  by rewrite existsb_is_nul_nonnul by apply cstr_nonnul.
Qed.

Lemma omap_id_Some {A} (l : list A) : omap id (map Some l) = l.
Proof. induction l as [|x l IH]; [done|]. csimpl. by rewrite IH. Qed.

Lemma omap_id_None {A} n (l : list (option A)) :
  omap id (replicate n None ++ l) = omap id l.
Proof. induction n as [|n IH]; [done|]. csimpl. exact IH. Qed.

Lemma ring_after_push entries e :
  tail (ring_after entries) ++ [Some e] = ring_after (entries ++ [e]).
Proof.
  unfold ring_after. rewrite length_app. simpl.
  destruct (decide (length entries < 20)) as [Hlt|Hge].
  - replace (20 - length entries) with (S (20 - (length entries + 1))) by lia.
    replace (length entries - 20) with 0 by lia.
    replace (length entries + 1 - 20) with 0 by lia.
    simpl. rewrite !drop_0, map_app, <- app_assoc. done.
  - replace (20 - length entries) with 0 by lia.
    replace (20 - (length entries + 1)) with 0 by lia. simpl.
    destruct (lookup_lt_is_Some_2 entries (length entries - 20)) as [x Hx];
      [lia|].
    rewrite (drop_S _ x _ Hx). simpl.
    replace (length entries + 1 - 20) with (S (length entries - 20)) by lia.
    rewrite drop_app_le by lia. by rewrite map_app.
Qed.

Section History.
Context (os : os_env).

Lemma add_to_history_util_spec line w :
  alloc_ok os (strlen line * 1) = true →
  add_to_history_util os line w
  = Ret tt
      (set_history
         (<[history_pos w := Some (entry_of line)]> (history_str w))
         ((history_pos w + 1) mod USH_MAX_HISTORY_COUNT)
         (set_oob (w_oob w ++ [StrcpyOverflow (strlen line * 1) (S (strlen line))])
            (set_heap (w_heap w ++ [strlen line * 1]) w))).
Proof.
  intros Halloc. unfold add_to_history_util, sh_bind.
  rewrite malloc_granted by done. cbn [negb]. unfold strcpy.
  sh_unfold. cbn [blk_size]. rewrite length_app, length_cstr. simpl length.
  rewrite Nat.add_1_r.
  destruct (Nat.ltb_spec (strlen line * 1) (S (strlen line))) as [_|Hge]; [|lia].
  unfold violate. by sh_unfold.
Qed.

Lemma record_all_spec lines : ∀ prev w,
  (∀ n, alloc_ok os n = true) →
  history_wf w →
  ring_order (history_pos w) (history_str w) = ring_after prev →
  ∃ w',
    record_all os lines w = Ret tt w' ∧
    history_wf w' ∧
    ring_order (history_pos w') (history_str w')
    = ring_after (prev ++ map entry_of lines) ∧
    w_stdout w' = w_stdout w.
Proof.
  induction lines as [|line lines IH]; intros prev w Halloc Hwf Hring.
  - exists w. simpl. by rewrite app_nil_r.
  - cbn [record_all]. sh_unfold.
    rewrite add_to_history_util_spec by done.
    destruct Hwf as [Hlen Hpos]. unfold USH_MAX_HISTORY_COUNT in *.
    edestruct (IH (prev ++ [entry_of line])) as (w' & Hrun & Hwf' & Hring' & Hout);
      [done | | | ].
    3:{ exists w'. split; [exact Hrun|]. split; [done|]. split; [|exact Hout].
        rewrite Hring'. cbn [map]. by rewrite <- app_assoc. }
    + split; cbn [history_str history_pos set_history];
        unfold USH_MAX_HISTORY_COUNT.
      * by rewrite length_insert.
      * apply Nat.mod_upper_bound. lia.
    + cbn [history_str history_pos set_history].
      rewrite ring_order_push by done. rewrite Hring.
      apply ring_after_push.
Qed.

End History.

Lemma ring_order_fmap {A B} (f : A → B) pos (slots : list A) :
  ring_order pos (f <$> slots) = f <$> ring_order pos slots.
Proof. unfold ring_order. by rewrite fmap_app, fmap_drop, fmap_take. Qed.

Lemma omap_id_fmap {A B} (f : A → B) (l : list (option A)) :
  omap id ((λ o : option A, f <$> o) <$> l) = f <$> omap id l.
Proof.
  induction l as [|[x|] l IH]; [done|..]; csimpl; by rewrite IH.
Qed.

(** Where the terminator written behind an entry is always found again,
    the listing after any sequence of records is that of the last 20
    lines recorded, oldest first, numbered from 1: the slots visited, their
    order and the numbers are those of the ring; only the text read at an
    entry depends on what lies behind its block. *)
Lemma history_lists_last_20_where_terminators_stay os lines args w :
  (∀ n, alloc_ok os n = true) →
  (∀ slots i, past_entry os slots i = []) →
  history_str w = replicate USH_MAX_HISTORY_COUNT None →
  history_pos w = 0 →
  ∃ w1 w2,
    record_all os lines w = Ret tt w1 ∧
    ush_history os args w1 = Ret 1%Z w2 ∧
    w_stdout w2
    = w_stdout w
      ++ history_listing 1 (cstr <$> drop (length lines - 20) lines).
Proof.
  intros Halloc Hpast Hstr Hpos.
  destruct (record_all_spec os lines [] w Halloc)
    as (w1 & Hrun & Hwf & Hring & Hout).
  { split; [by rewrite Hstr, length_replicate
           | rewrite Hpos; unfold USH_MAX_HISTORY_COUNT; lia]. }
  { rewrite Hstr, Hpos. done. }
  exists w1, (set_stdout (w_stdout w1 ++ history_text os w1) w1).
  split; [done|]. split; [by apply ush_history_spec|].
  cbn [w_stdout set_stdout]. rewrite Hout. f_equal.
  unfold history_text.
  assert (Hs : slot_strings os (history_str w1)
               = (λ slot : option block, entry_string os [] 0 <$> slot)
                   <$> history_str w1).
  { unfold slot_strings. rewrite <- imap_const. apply imap_ext.
    intros i slot _. unfold const. f_equal.
    unfold entry_string. by rewrite !Hpast. }
  rewrite Hs, ring_order_fmap, (omap_id_fmap (entry_string os [] 0)), Hring.
  unfold ring_after.
  simpl app. rewrite omap_id_None, omap_id_Some, length_map.
  rewrite skipn_map, <- !list_fmap_compose. f_equal.
  apply list_fmap_ext. intros i line _. unfold compose.
  by rewrite entry_string_entry_of, Hpast, app_nil_r.
Qed.

(** ** Two further facts on lines and records *)

Lemma cstr_app_nul s : cstr (s ++ [NUL]) = cstr s.
Proof.
  unfold cstr. induction s as [|c s IH]; [done|].
  simpl. destruct (is_nul c); [done|]. simpl. by rewrite IH.
Qed.

Lemma add_to_history_util_refused os line w :
  alloc_ok os (strlen line * 1) = false →
  add_to_history_util os line w
  = Exit EXIT_FAILURE
      (set_stderr (w_stderr w ++ lit "ush: allocation error" ++ [LF]) w).
Proof.
  intros H. unfold add_to_history_util, sh_bind.
  by rewrite malloc_refused.
Qed.

(** * The history buffer, the tokenizer and echo *)

(** C1 (the code departs from the claim): the loop records the line after
    [ush_split_line] has cut it, so for the typed line [echo a b] the
    history entry holds [echo], not the line as read. *)
Theorem C1_history_entry_is_cut_at_first_token :
  ∃ w' entry,
    ush_loop_body os64 (session [typed "echo a b"]) = Ret 1%Z w' ∧
    history_str w' !! 0 = Some (Some entry) ∧
    cstr (blk_bytes entry) = lit "echo" ∧
    cstr (blk_bytes entry) ≠ typed "echo a b".
Proof.
  eexists _, _. split; [vm_compute; reflexivity|].
  split; [reflexivity|]. split; [reflexivity|]. by vm_compute.
Qed.

(** C2 (the code departs from the claim): for the line [ls] the copy
    routine asks [malloc] for 2 bytes, [strlen(line)], and [strcpy] then
    writes 3 bytes, so the terminator falls outside the entry. *)
Theorem C2_history_copy_one_byte_short :
  ∃ w' entry,
    add_to_history_util os64 (lit "ls" ++ [NUL]) (session []) = Ret tt w' ∧
    w_heap w' = [2] ∧
    history_str w' !! 0 = Some (Some entry) ∧
    blk_size entry = 2 ∧ length (blk_bytes entry) = 3 ∧
    w_oob w' = [StrcpyOverflow 2 3] ∧
    ¬ mem_safe w'.
Proof.
  eexists _, _. split; [vm_compute; reflexivity|].
  repeat split; try reflexivity. by vm_compute.
Qed.

(** The same for every line: the request is [strlen(line)] bytes and the
    copy takes one more. *)
Lemma history_copy_always_one_byte_short os line w :
  alloc_ok os (strlen line * 1) = true →
  ∃ w',
    add_to_history_util os line w = Ret tt w' ∧
    w_heap w' = w_heap w ++ [strlen line] ∧
    w_oob w' = w_oob w ++ [StrcpyOverflow (strlen line) (strlen line + 1)] ∧
    ¬ mem_safe w'.
Proof.
  intros H. eexists. split; [by apply add_to_history_util_spec|].
  cbn [w_heap w_oob set_history set_oob set_heap].
  rewrite Nat.mul_1_r, Nat.add_1_r. repeat split.
  unfold mem_safe. cbn [w_oob set_history set_oob].
  intros E. by apply app_eq_nil in E as [_ ?].
Qed.

(** C3 (the code departs from the claim): an entry has no room for its
    terminator (C2), so the listing prints it together with what lies
    behind its block. On a machine that packs the entries, after the
    command [aaaaaaaaaaaaaaaaaaaaaaaa] (24 letters) the command [history]
    lists two entries, in order and numbered 1 and 2, but shows the first
    one with a stray [!] at its end: what is printed is not the entry
    that was recorded. *)
Theorem C3_history_lists_stray_byte :
  ∃ w1 w2 entry,
    ush_loop_body os64_packed
      (session [typed "aaaaaaaaaaaaaaaaaaaaaaaa"; typed "history"])
    = Ret 1%Z w1 ∧
    ush_loop_body os64_packed w1 = Ret 1%Z w2 ∧
    history_str w2 !! 0 = Some (Some entry) ∧
    blk_size entry = 24 ∧
    take (blk_size entry) (blk_bytes entry) = lit "aaaaaaaaaaaaaaaaaaaaaaaa" ∧
    w_stdout w2
    = prompt_text ++ prompt_text
      ++ lit "   1   aaaaaaaaaaaaaaaaaaaaaaaa!" ++ [LF]
      ++ lit "   2   history" ++ [LF].
Proof.
  eexists _, _, _. split; [vm_compute; reflexivity|].
  split; [vm_compute; reflexivity|].
  split; [reflexivity|]. split; [reflexivity|]. split; reflexivity.
Qed.

(** C5 (the code departs from the claim): on a line of 64 tokens the array
    is reallocated to 128 bytes, which hold 16 pointers; the reader of
    [args] no longer finds the 64 tokens nor the end marker. *)
Theorem C5_sixty_four_tokens_are_lost :
  ∃ tokens line' w',
    ush_split_line os64 (line64 ++ [NUL]) (session []) = Ret (tokens, line') w' ∧
    tokens_of (cstr (line64 ++ [NUL])) = replicate 64 (lit "a") ∧
    args_of line' (ta_slots tokens) = replicate 16 (lit "a") ∧
    Null ∉ ta_slots tokens.
Proof.
  eexists _, _, _. split; [vm_compute; reflexivity|].
  split; [by vm_compute|]. split; [by vm_compute|].
  apply (bool_decide_unpack _). by vm_compute.
Qed.

(** C6 (the code departs from the claim): on the same line the array is
    given 512 bytes, then 128 bytes by [realloc(tokens, bufsize)], and the
    store of the sentinel at slot 64 lies outside these 128 bytes. *)
Theorem C6_realloc_counts_bytes_not_slots :
  ∃ tokens line' w',
    ush_split_line os64 (line64 ++ [NUL]) (session []) = Ret (tokens, line') w' ∧
    w_heap w' = [512; 128] ∧
    ta_cap tokens = 128 ∧
    w_oob w' = [StoreOutOfBounds 64 128] ∧
    ¬ mem_safe w'.
Proof.
  eexists _, _, _. split; [vm_compute; reflexivity|].
  repeat split; try reflexivity. by vm_compute.
Qed.

(** C7, the claim as stated fails: [echo a b c] does not print
    [a b c] and a newline. *)
Lemma C7_echo_abc_is_not_exact :
  ush_echo [lit "echo"; lit "a"; lit "b"; lit "c"] (session [])
  ≠ Ret 1%Z (set_stdout (lit "a b c" ++ [LF]) (session [])).
Proof. by vm_compute. Qed.

Lemma echo_loop_spec rest : ∀ w,
  echo_loop rest w
  = Ret tt (set_stdout
              (w_stdout w ++ concat (map (λ arg, cstr arg ++ lit " ") rest)) w).
Proof.
  induction rest as [|arg rest IH]; intros w.
  - simpl. sh_unfold. by rewrite app_nil_r, set_stdout_id.
  - cbn [echo_loop]. unfold print. sh_unfold. rewrite IH.
    cbn [w_stdout set_stdout map concat]. by rewrite <- !app_assoc.
Qed.

Lemma ush_echo_spec cmd args w :
  ush_echo (cmd :: args) w
  = Ret 1%Z
      (set_stdout
         (w_stdout w ++ concat (map (λ arg, cstr arg ++ lit " ") args) ++ [LF])
         w).
Proof.
  unfold ush_echo. cbn [drop]. sh_unfold.
  rewrite echo_loop_spec. unfold print. sh_unfold.
  cbn [w_stdout set_stdout]. by rewrite <- app_assoc.
Qed.

(** C7 as amended: [ush_echo] prints every argument after the command
    name followed by one space, then one newline, and returns 1; so
    [echo a b c] prints ["a b c \n"] and [echo] alone prints ["\n"]. *)
Theorem C7_echo_prints_each_argument_and_a_space :
  (∀ cmd args w,
     ush_echo (cmd :: args) w
     = Ret 1%Z
         (set_stdout
            (w_stdout w ++ concat (map (λ arg, cstr arg ++ lit " ") args) ++ [LF])
            w)) ∧
  (∀ w,
     ush_echo [lit "echo"; lit "a"; lit "b"; lit "c"] w
     = Ret 1%Z (set_stdout (w_stdout w ++ lit "a b c " ++ [LF]) w)) ∧
  (∀ w, ush_echo [lit "echo"] w = Ret 1%Z (set_stdout (w_stdout w ++ [LF]) w)).
Proof.
  split; [apply ush_echo_spec|]. split; intros w; by rewrite ush_echo_spec.
Qed.

(** C9: a line without tokens leaves the history buffer as it was; the
    cursor, the slots and every later listing are those of before. *)
Theorem C9_empty_command_leaves_history os line rest w :
  alloc_ok os (sizeof_ptr os * USH_TOK_BUFSIZE) = true →
  w_stdin w = line :: rest →
  tokens_of (cstr line) = [] →
  ∃ w',
    ush_loop_body os w = Ret 1%Z w' ∧
    history_str w' = history_str w ∧
    history_pos w' = history_pos w ∧
    history_text os w' = history_text os w ∧
    (history_wf w →
     ∀ args, ush_history os args w'
             = Ret 1%Z (set_stdout (w_stdout w' ++ history_text os w) w')).
Proof.
  intros Halloc Hin Htok.
  unfold ush_loop_body, print, ush_read_line. sh_unfold.
  cbn [w_stdin set_stdout]. rewrite Hin. cbn [set_stdin].
  edestruct (ush_split_line_small os (line ++ [NUL])) as (offs & line' & -> & Hargs & _);
    [exact Halloc | rewrite cstr_app_nul, Htok; simpl; unfold USH_TOK_BUFSIZE; lia |].
  rewrite cstr_app_nul, Htok, args_of_texts in Hargs.
  destruct offs as [|o offs]; [|discriminate].
  cbn [ta_slots map app lookup list_lookup is_null negb args_of ush_execute].
  eexists. split; [reflexivity|]. split; [done|]. split; [done|]. split; [done|].
  intros Hwf args. rewrite (ush_history_spec os); [done|]. exact Hwf.
Qed.

Lemma C9_empty_command_leaves_history_witness :
  ∃ w',
    ush_loop_body os64 (session [typed "  "]) = Ret 1%Z w' ∧
    history_str w' = history_str (session [typed "  "]) ∧
    history_pos w' = history_pos (session [typed "  "]) ∧
    history_text os64 w' = history_text os64 (session [typed "  "]) ∧
    (history_wf (session [typed "  "]) →
     ∀ args, ush_history os64 args w'
             = Ret 1%Z (set_stdout (w_stdout w' ++
                                    history_text os64 (session [typed "  "])) w')).
Proof.
  apply (C9_empty_command_leaves_history os64 (typed "  ") [] (session [typed "  "]));
    reflexivity.
Defined.

(** C10: [ush_history] only appends the listing to standard output: the
    20 slots and the cursor are unchanged, a second call prints the same
    text, and a later record gives the same history as without the call. *)
Theorem C10_ush_history_is_read_only os args w :
  history_wf w →
  ∃ w1 w2,
    ush_history os args w = Ret 1%Z w1 ∧
    w1 = set_stdout (w_stdout w ++ history_text os w) w ∧
    history_str w1 = history_str w ∧
    history_pos w1 = history_pos w ∧
    ush_history os args w1 = Ret 1%Z w2 ∧
    w_stdout w2 = w_stdout w1 ++ history_text os w ∧
    history_str w2 = history_str w ∧
    history_pos w2 = history_pos w ∧
    ∀ os' line,
      match add_to_history_util os' line w, add_to_history_util os' line w1 with
      | Ret _ wa, Ret _ wb =>
          history_str wb = history_str wa ∧ history_pos wb = history_pos wa
      | Exit _ _, Exit _ _ => True
      | _, _ => False
      end.
Proof.
  intros Hwf.
  exists (set_stdout (w_stdout w ++ history_text os w) w).
  eexists. split; [by apply ush_history_spec|]. split; [done|].
  split; [done|]. split; [done|].
  split; [by apply ush_history_spec|]. repeat split.
  intros os' line. destruct (alloc_ok os' (strlen line * 1)) eqn:E.
  - by rewrite !add_to_history_util_spec.
  - by rewrite !add_to_history_util_refused.
Qed.

Lemma C10_ush_history_is_read_only_witness :
  ∃ w1 w2,
    ush_history os64 [] (session []) = Ret 1%Z w1 ∧
    w1 = set_stdout (w_stdout (session []) ++ history_text os64 (session []))
                    (session []) ∧
    history_str w1 = history_str (session []) ∧
    history_pos w1 = history_pos (session []) ∧
    ush_history os64 [] w1 = Ret 1%Z w2 ∧
    w_stdout w2 = w_stdout w1 ++ history_text os64 (session []) ∧
    history_str w2 = history_str (session []) ∧
    history_pos w2 = history_pos (session []) ∧
    ∀ os' line,
      match add_to_history_util os' line (session []),
            add_to_history_util os' line w1 with
      | Ret _ wa, Ret _ wb =>
          history_str wb = history_str wa ∧ history_pos wb = history_pos wa
      | Exit _ _, Exit _ _ => True
      | _, _ => False
      end.
Proof.
  apply (C10_ush_history_is_read_only os64 [] (session [])).
  split; [reflexivity | unfold USH_MAX_HISTORY_COUNT; simpl; lia].
Defined.

(** * Return codes *)

Lemma bind_inv {A B} (m : sh A) (k : A → sh B) w b w' :
  sh_bind m k w = Ret b w' → ∃ a w1, m w = Ret a w1 ∧ k a w1 = Ret b w'.
Proof.
  unfold sh_bind. destruct (m w) as [a w1| |]; [|done..]. eauto.
Qed.

Ltac bind_inv :=
  unfold mbind, sh_mbind in *;
  repeat match goal with
         | H : sh_bind _ _ _ = Ret _ _ |- _ =>
             apply bind_inv in H as (? & ? & ? & H)
         end.

Lemma mret_inv {A} (a b : A) w w' :
  (mret a : sh A) w = Ret b w' → a = b ∧ w = w'.
Proof. by intros [= -> ->]. Qed.

Section ReturnCodes.
Context (os : os_env).

Lemma ush_cd_code args w c w' : ush_cd os args w = Ret c w' → c = 1%Z.
Proof. unfold ush_cd. intros H. bind_inv. by apply mret_inv in H as [<- _]. Qed.

Lemma ush_help_code args w c w' : ush_help args w = Ret c w' → c = 1%Z.
Proof. unfold ush_help. intros H. bind_inv. by apply mret_inv in H as [<- _]. Qed.

Lemma ush_echo_code args w c w' : ush_echo args w = Ret c w' → c = 1%Z.
Proof. unfold ush_echo. intros H. bind_inv. by apply mret_inv in H as [<- _]. Qed.

Lemma ush_history_code args w c w' :
  ush_history os args w = Ret c w' → c = 1%Z.
Proof. unfold ush_history. intros H. bind_inv. by apply mret_inv in H as [<- _]. Qed.

Lemma pwd_loop_code fuel : ∀ size w c w',
  pwd_loop os fuel size w = Ret c w' → c = 1%Z.
Proof.
  induction fuel as [|fuel IH]; intros size w c w' H; [done|].
  cbn [pwd_loop] in H.
  apply bind_inv in H as (granted & w1 & _ & H).
  destruct granted; cbn [negb] in H; [|unfold allocation_error in H; by bind_inv].
  apply bind_inv in H as (ptr & w2 & _ & H).
  destruct ptr as [e|dir].
  - destruct (is_ERANGE e); cbn [negb] in H.
    + by apply IH in H.
    + bind_inv. by apply mret_inv in H as [<- _].
  - bind_inv. by apply mret_inv in H as [<- _].
Qed.

Lemma ush_pwd_code args w c w' : ush_pwd os args w = Ret c w' → c = 1%Z.
Proof. apply pwd_loop_code. Qed.

Lemma ush_launch_code args w c w' : ush_launch os args w = Ret c w' → c = 1%Z.
Proof.
  unfold ush_launch. intros H. destruct (fork_outcome os args).
  - destruct (execvp_outcome os args); [|done]. bind_inv. done.
  - bind_inv. by apply mret_inv in H as [<- _].
  - by apply mret_inv in H as [<- _].
Qed.

Lemma streq_lit a name : streq a name = true ↔ cstr a = cstr name.
Proof. unfold streq. apply bool_decide_eq_true. Qed.

(** The dispatcher's code is 0 in the [exit] row of the table and 1
    everywhere else. *)
Lemma ush_execute_code args w c w' :
  ush_execute os args w = Ret c w' →
  (c = 0%Z ∧ ∃ a rest, args = a :: rest ∧ cstr a = lit "exit") ∨
  (c = 1%Z ∧ ∀ a rest, args = a :: rest → cstr a ≠ lit "exit").
Proof.
  destruct args as [|a rest]; cbn [ush_execute].
  { intros [= <- _]. right. split; [done|]. intros ?? [=]. }
  cbn [ush_num_builtins builtin_str builtin_func length zip zip_with take dispatch].
  destruct (streq a (lit "cd")) eqn:Ecd.
  { intros H%ush_cd_code. right. split; [done|]. intros ?? [= <- <-].
    apply streq_lit in Ecd. rewrite Ecd. by vm_compute. }
  destruct (streq a (lit "help")) eqn:Ehelp.
  { intros H%ush_help_code. right. split; [done|]. intros ?? [= <- <-].
    apply streq_lit in Ehelp. rewrite Ehelp. by vm_compute. }
  destruct (streq a (lit "exit")) eqn:Eexit.
  { intros [= <- _]. left. split; [done|]. exists a, rest. split; [done|].
    by apply streq_lit in Eexit. }
  assert (Hne : ∀ a' rest', a :: rest = a' :: rest' → cstr a' ≠ lit "exit").
  { intros ?? [= <- <-] E. apply (f_equal (λ x, bool_decide (x = cstr (lit "exit")))) in E.
    unfold streq in Eexit. rewrite Eexit in E. by vm_compute in E. }
  destruct (streq a (lit "echo")).
  { intros H%ush_echo_code. by right. }
  destruct (streq a (lit "history")).
  { intros H%ush_history_code. by right. }
  destruct (streq a (lit "pwd")).
  { intros H%ush_pwd_code. by right. }
  intros H%ush_launch_code. by right.
Qed.

End ReturnCodes.

Section Totality.
Context (os : os_env).
Hypothesis alloc_always : ∀ n, alloc_ok os n = true.

Lemma help_loop_returns names : ∀ w, ∃ w', help_loop names w = Ret tt w'.
Proof.
  induction names as [|name names IH]; intros w; [by eexists|].
  cbn [help_loop]. unfold print. sh_unfold. apply IH.
Qed.

Lemma ush_help_returns args w : ∃ w', ush_help args w = Ret 1%Z w'.
Proof.
  unfold ush_help, print. sh_unfold.
  edestruct help_loop_returns as [w' ->]. by eexists.
Qed.

Lemma ush_cd_returns args w : ∃ w', ush_cd os args w = Ret 1%Z w'.
Proof.
  unfold ush_cd, eprint, perror, eprint. sh_unfold.
  destruct (args !! 1); [|by eexists].
  destruct (chdir_result os (w_cwd w) l); by eexists.
Qed.

Lemma uint_double s0 j :
  (((s0 * 2 ^ Z.of_nat j) mod UINT_MODULUS * 2) mod UINT_MODULUS
   = (s0 * 2 ^ Z.of_nat (S j)) mod UINT_MODULUS)%Z.
Proof.
  rewrite Z.mul_mod_idemp_l by done.
  rewrite Nat2Z.inj_succ, Z.pow_succ_r by lia. f_equal. lia.
Qed.

(** Doubling an [unsigned int] 32 times gives 0, and [getcwd] refuses a
    size of 0 with an error that ends the loop: 33 rounds always do. *)
Lemma pwd_loop_returns s0 fuel : ∀ j w,
  j ≤ 32 → 32 - j < fuel →
  ∃ w', pwd_loop os fuel ((s0 * 2 ^ Z.of_nat j) mod UINT_MODULUS)%Z w
        = Ret 1%Z w'.
Proof.
  induction fuel as [|fuel IH]; intros j w Hj Hfuel; [lia|].
  cbn [pwd_loop]. unfold realloc, sh_bind at 1.
  rewrite malloc_granted by done. cbn [negb].
  unfold sh_bind at 1. unfold getcwd. sh_unfold.
  destruct (Z.eqb_spec ((s0 * 2 ^ Z.of_nat j) mod UINT_MODULUS) 0) as [E0|Hne].
  { cbn [is_ERANGE negb]. unfold perror, eprint. sh_unfold. by eexists. }
  assert (Hlt : j < 32).
  { destruct (decide (j = 32)) as [->|]; [|lia]. exfalso. apply Hne.
    change (2 ^ Z.of_nat 32)%Z with UINT_MODULUS. apply Z_mod_mult. }
  destruct (getcwd_failure os) as [e|].
  - destruct (is_ERANGE e); cbn [negb].
    + rewrite uint_double. apply IH; lia.
    + unfold perror, eprint. sh_unfold. by eexists.
  - destruct (_ <=? _)%Z.
    + unfold print. sh_unfold. by eexists.
    + cbn [is_ERANGE negb]. rewrite uint_double. apply IH; lia.
Qed.

Lemma pwd_initial_size_uint path_max :
  (pwd_initial_size path_max
   = (pwd_initial_size path_max * 2 ^ Z.of_nat 0) mod UINT_MODULUS)%Z.
Proof.
  rewrite Z.mul_1_r. unfold pwd_initial_size.
  destruct (_ =? _)%Z; [done|]. destruct (_ >? _)%Z; [done|].
  by rewrite Z.mod_mod.
Qed.

Lemma ush_pwd_returns args w : ∃ w', ush_pwd os args w = Ret 1%Z w'.
Proof.
  unfold ush_pwd. rewrite pwd_initial_size_uint. apply pwd_loop_returns; lia.
Qed.

Lemma ush_launch_returns args w :
  fork_outcome os args ≠ ForkChild → ∃ w', ush_launch os args w = Ret 1%Z w'.
Proof.
  intros H. unfold ush_launch. destruct (fork_outcome os args); [done| |].
  - unfold perror, eprint. sh_unfold. by eexists.
  - by eexists.
Qed.

(** In the shell's own process the dispatcher always returns. *)
Lemma ush_execute_returns args w :
  history_wf w → fork_outcome os args ≠ ForkChild →
  ∃ c w', ush_execute os args w = Ret c w'.
Proof.
  intros Hwf Hfork. destruct args as [|a rest]; cbn [ush_execute]; [by eexists _, _|].
  cbn [ush_num_builtins builtin_str builtin_func length zip zip_with take dispatch].
  destruct (streq a (lit "cd")).
  { edestruct ush_cd_returns as [w' ->]. by eexists _, _. }
  destruct (streq a (lit "help")).
  { edestruct ush_help_returns as [w' ->]. by eexists _, _. }
  destruct (streq a (lit "exit")); [by eexists _, _|].
  destruct (streq a (lit "echo")).
  { rewrite ush_echo_spec. by eexists _, _. }
  destruct (streq a (lit "history")).
  { rewrite (ush_history_spec os) by done. by eexists _, _. }
  destruct (streq a (lit "pwd")).
  { edestruct ush_pwd_returns as [w' ->]. by eexists _, _. }
  edestruct ush_launch_returns as [w' ->]; [done|]. by eexists _, _.
Qed.

End Totality.

(** C4: the dispatcher returns 1 for an empty argument list and 0 for
    [exit]; a code of 0 comes from the [exit] row only; every other row
    of the table and the launcher return 1, whatever the status of the
    launched program; in the shell's own process the dispatcher returns;
    and the loop stops exactly on the code 0. *)
Theorem C4_continuation_code os :
  (∀ w, ush_execute os [] w = Ret 1%Z w) ∧
  (∀ a rest w, cstr a = lit "exit" → ush_execute os (a :: rest) w = Ret 0%Z w) ∧
  (∀ args w c w',
     ush_execute os args w = Ret c w' →
     (c = 0%Z ∧ ∃ a rest, args = a :: rest ∧ cstr a = lit "exit") ∨
     (c = 1%Z ∧ ∀ a rest, args = a :: rest → cstr a ≠ lit "exit")) ∧
  (∀ name func,
     (name, func) ∈ zip builtin_str (builtin_func os) →
     name ≠ lit "exit" →
     ∀ args w c w', func args w = Ret c w' → c = 1%Z) ∧
  (∀ args w c w', ush_launch os args w = Ret c w' → c = 1%Z) ∧
  (∀ args w status,
     fork_outcome os args = ForkParent status →
     ush_launch os args w = Ret 1%Z w) ∧
  (∀ args w,
     (∀ n, alloc_ok os n = true) → history_wf w →
     fork_outcome os args ≠ ForkChild →
     ∃ c w', ush_execute os args w = Ret c w') ∧
  (∀ fuel w c w1,
     ush_loop_body os w = Ret c w1 →
     ush_loop os (S fuel) w
     = if (c =? 0)%Z then Ret tt w1 else ush_loop os fuel w1).
Proof.
  split; [done|]. split.
  { intros a rest w Ha. cbn [ush_execute].
    cbn [ush_num_builtins builtin_str builtin_func length zip zip_with take dispatch].
    unfold streq. rewrite Ha. by vm_compute. }
  split; [apply ush_execute_code|]. split.
  { intros name func Hin Hname args w c w'.
    cbn [builtin_str builtin_func zip zip_with] in Hin.
    repeat (apply elem_of_cons in Hin as [[= -> ->]|Hin]);
      [apply ush_cd_code | apply ush_help_code | done | apply ush_echo_code
      | apply ush_history_code | apply ush_pwd_code | by apply elem_of_nil in Hin]. }
  split; [apply ush_launch_code|]. split.
  { intros args w status H. unfold ush_launch. by rewrite H. }
  split; [intros args w Halloc Hwf Hfork; by apply ush_execute_returns|].
  intros fuel w c w1 H. cbn [ush_loop]. unfold sh_bind. rewrite H.
  by destruct (c =? 0)%Z.
Qed.

Lemma C4_continuation_code_witness :
  ush_execute os64 [lit "exit"; lit "now"] (session []) = Ret 0%Z (session []) ∧
  (∃ c w', ush_execute os64 [lit "ls"; lit "-l"] (session []) = Ret c w') ∧
  ush_launch os64 [lit "ls"] (session []) = Ret 1%Z (session []).
Proof.
  destruct (C4_continuation_code os64)
    as (_ & Hexit & _ & _ & _ & Hparent & Hret & _).
  split; [by apply Hexit|]. split.
  - apply Hret; [done | | done].
    split; [reflexivity | unfold USH_MAX_HISTORY_COUNT; simpl; lia].
  - by apply (Hparent _ _ 0%Z).
Defined.

(** * The [pwd] buffer *)

Lemma pwd_loop_doubles os :
  (∀ n, alloc_ok os n = true) → getcwd_failure os = None →
  ∀ m size fuel w,
    m < fuel → (0 < size)%Z → (size * 2 ^ Z.of_nat m < UINT_MODULUS)%Z →
    (∀ i, i < m → (size * 2 ^ Z.of_nat i < Z.of_nat (strlen (w_cwd w)) + 1)%Z) →
    (Z.of_nat (strlen (w_cwd w)) + 1 ≤ size * 2 ^ Z.of_nat m)%Z →
    pwd_loop os fuel size w
    = Ret 1%Z
        (set_stdout (w_stdout w ++ cstr (w_cwd w))
           (set_heap
              (w_heap w ++
               map (λ i, Z.to_nat (size * 2 ^ Z.of_nat i)) (seq 0 (S m)))
              w)).
Proof.
  intros Halloc Hcwd.
  induction m as [|m IH]; intros size fuel w Hfuel Hpos Hmax Hsmall Hfit;
    (destruct fuel as [|fuel]; [lia|]);
    cbn [pwd_loop]; unfold realloc, sh_bind at 1;
    rewrite malloc_granted by done; cbn [negb];
    unfold sh_bind at 1; unfold getcwd; sh_unfold; rewrite Hcwd;
    cbn [w_cwd set_heap];
    (destruct (Z.eqb_spec size 0) as [E0|_]; [lia|]).
  - change (Z.of_nat 0) with 0%Z in *. rewrite Z.pow_0_r, Z.mul_1_r in *.
    destruct (Z.leb_spec (Z.of_nat (strlen (w_cwd w)) + 1) size) as [_|Hlt]; [|lia].
    unfold print. sh_unfold. cbn [seq map].
    change (Z.of_nat 0) with 0%Z. by rewrite Z.pow_0_r, Z.mul_1_r.
  - pose proof (Hsmall 0 ltac:(lia)) as H0.
    change (Z.of_nat 0) with 0%Z in H0. rewrite Z.pow_0_r, Z.mul_1_r in H0.
    destruct (Z.leb_spec (Z.of_nat (strlen (w_cwd w)) + 1) size) as [Hle|_]; [lia|].
    cbn [is_ERANGE negb].
    assert (Epow : ∀ i, (size * 2 * 2 ^ Z.of_nat i = size * 2 ^ Z.of_nat (S i))%Z).
    { intros i. rewrite Nat2Z.inj_succ, Z.pow_succ_r by lia. lia. }
    assert (Hdouble : (0 < size * 2 < UINT_MODULUS)%Z).
    { split; [lia|]. rewrite Nat2Z.inj_succ, Z.pow_succ_r in Hmax by lia.
      assert (1 ≤ 2 ^ Z.of_nat m)%Z by (apply Z.pow_le_mono_r with (b := 0%Z); lia).
      nia. }
    rewrite Z.mod_small by lia.
    rewrite (IH (size * 2)%Z fuel); cbn [w_cwd w_stdout w_heap set_heap]; try lia.
    + unfold set_stdout, set_heap.
      cbn [history_str history_pos w_stdin w_stdout w_stderr w_cwd w_heap w_oob].
      f_equal. f_equal. rewrite <- app_assoc. f_equal.
      rewrite <- (cons_seq (S m) 0). cbn [map app].
      change (Z.of_nat 0) with 0%Z. rewrite Z.pow_0_r, Z.mul_1_r. f_equal.
      rewrite <- seq_shift, map_map. apply map_ext. intros i. by rewrite Epow.
    + by rewrite Epow.
    + intros i Hi. rewrite Epow. apply Hsmall. lia.
    + by rewrite Epow.
Qed.

(** C8, the claim as stated fails: with a path-length hint of 512 the
    buffer starts at 512 bytes, below 1024. *)
Lemma C8_initial_size_can_be_below_1024 :
  ∃ w',
    ush_pwd os64_short_paths [lit "pwd"] (session []) = Ret 1%Z w' ∧
    w_heap w' = [512] ∧
    ¬ (1024 ≤ pwd_initial_size (pathconf_path_max os64_short_paths))%Z.
Proof.
  eexists. split; [vm_compute; reflexivity|]. split; [reflexivity|].
  by vm_compute.
Qed.

(** C8 as amended: the buffer starts at 1024 bytes when the path-length
    hint is unavailable (-1), at 10240 bytes when the hint exceeds 10240,
    and at the hint itself otherwise; it then doubles until [getcwd]
    succeeds, and the directory is printed with no newline after it. *)
Theorem C8_pwd_buffer_doubles_from_the_hint :
  pwd_initial_size (-1) = 1024%Z ∧
  (∀ path_max, (10240 < path_max)%Z → pwd_initial_size path_max = 10240%Z) ∧
  (∀ path_max, (0 ≤ path_max ≤ 10240)%Z → pwd_initial_size path_max = path_max) ∧
  (∀ os args w m,
     (∀ n, alloc_ok os n = true) → getcwd_failure os = None →
     let size := pwd_initial_size (pathconf_path_max os) in
     let need := (Z.of_nat (strlen (w_cwd w)) + 1)%Z in
     (0 < size)%Z → (size * 2 ^ Z.of_nat m < UINT_MODULUS)%Z →
     (∀ i, i < m → (size * 2 ^ Z.of_nat i < need)%Z) →
     (need ≤ size * 2 ^ Z.of_nat m)%Z →
     ush_pwd os args w
     = Ret 1%Z
         (set_stdout (w_stdout w ++ cstr (w_cwd w))
            (set_heap
               (w_heap w ++
                map (λ i, Z.to_nat (size * 2 ^ Z.of_nat i)) (seq 0 (S m)))
               w))).
Proof.
  split; [done|]. split.
  { intros pm H. unfold pwd_initial_size.
    destruct (Z.eqb_spec pm (-1)); [lia|].
    destruct (Z.gtb_spec pm 10240); [done | lia]. }
  split.
  { intros pm H. unfold pwd_initial_size.
    destruct (Z.eqb_spec pm (-1)); [lia|].
    destruct (Z.gtb_spec pm 10240); [lia|].
    apply Z.mod_small. unfold UINT_MODULUS. lia. }
  intros os args w m Halloc Hcwd size need Hpos Hmax Hsmall Hfit.
  unfold ush_pwd. apply pwd_loop_doubles; try done.
  assert (2 ^ Z.of_nat m < 2 ^ 32)%Z as Hm.
  { assert (0 < 2 ^ Z.of_nat m)%Z by (apply Z.pow_pos_nonneg; lia).
    unfold UINT_MODULUS in Hmax. nia. }
  apply Z.pow_lt_mono_r_iff in Hm; lia.
Qed.

Lemma C8_pwd_buffer_doubles_from_the_hint_witness :
  ush_pwd os64 [lit "pwd"] (session [])
  = Ret 1%Z
      (set_stdout (w_stdout (session []) ++ cstr (w_cwd (session [])))
         (set_heap
            (w_heap (session []) ++
             map (λ i, Z.to_nat (pwd_initial_size (pathconf_path_max os64)
                                 * 2 ^ Z.of_nat i))
                 (seq 0 1))
            (session []))).
Proof.
  destruct C8_pwd_buffer_doubles_from_the_hint as (_ & _ & _ & H).
  apply (H os64 [lit "pwd"] (session []) 0); try done.
  intros i Hi. lia.
Defined.

(** A run with two doublings: a hint of 2 and the directory [/home]. *)
Example pwd_doubles_twice :
  ∃ w',
    ush_pwd (OsEnv 8 (λ _, true) 2 None (λ _ d, inr d) (λ _, ForkParent 0)
                   (λ _, inr 0%Z) (λ _, lit "error") (λ _ _, []))
            [lit "pwd"]
            (World (replicate 20 None) 0 [] [] [] (lit "/home") [] [])
    = Ret 1%Z w' ∧
    w_heap w' = [2; 4; 8] ∧ w_stdout w' = lit "/home".
Proof. eexists. split; [vm_compute; reflexivity|]. by split. Qed.

(** * What the dispatcher leaves alone *)

Lemma keeps_ret {A} (a : A) : keeps_history (mret a).
Proof. by intros w b w' [= _ <-]. Qed.

Lemma keeps_bind {A B} (m : sh A) (k : A → sh B) :
  keeps_history m → (∀ a, keeps_history (k a)) → keeps_history (sh_bind m k).
Proof.
  intros Hm Hk w b w' (a & w1 & H1 & H2)%bind_inv.
  destruct (Hm _ _ _ H1) as [E1 E2]. destruct (Hk a _ _ _ H2) as [-> ->].
  by split.
Qed.

Lemma keeps_seq {A B} (m : sh A) (k : sh B) :
  keeps_history m → keeps_history k → keeps_history (m;; k).
Proof. intros Hm Hk. apply keeps_bind; [done | by intros _]. Qed.

Lemma keeps_print s : keeps_history (print s).
Proof. by intros w a w' [= _ <-]. Qed.

Lemma keeps_eprint s : keeps_history (eprint s).
Proof. by intros w a w' [= _ <-]. Qed.

Lemma keeps_exit {A} c : keeps_history (exit c : sh A).
Proof. by intros w a w'. Qed.

Lemma keeps_unfinished {A} : keeps_history (unfinished : sh A).
Proof. by intros w a w'. Qed.

Lemma keeps_get_world : keeps_history get_world.
Proof. by intros w a w' [= _ <-]. Qed.

#[local] Hint Resolve keeps_ret keeps_print keeps_eprint keeps_exit
  keeps_unfinished keeps_get_world : keeps.

Section Frame.
Context (os : os_env).

Lemma keeps_perror e : keeps_history (perror os e).
Proof. apply keeps_eprint. Qed.

Lemma keeps_malloc n : keeps_history (malloc os n).
Proof.
  unfold malloc. destruct (alloc_ok os n); [|apply keeps_ret].
  apply keeps_seq; [|apply keeps_ret]. by intros w a w' [= _ <-].
Qed.

Lemma keeps_allocation_error {A} : keeps_history (allocation_error : sh A).
Proof. unfold allocation_error. apply keeps_seq; auto with keeps. Qed.

Lemma keeps_getcwd size : keeps_history (getcwd os size).
Proof.
  unfold getcwd. apply keeps_bind; [apply keeps_get_world|]. intros w.
  repeat case_match; apply keeps_ret.
Qed.

Lemma keeps_ush_cd args : keeps_history (ush_cd os args).
Proof.
  unfold ush_cd. apply keeps_seq; [|apply keeps_ret].
  destruct (args !! 1); [|apply keeps_eprint].
  apply keeps_bind; [apply keeps_get_world|]. intros w.
  destruct (chdir_result os (w_cwd w) l); [apply keeps_perror|].
  by intros w1 a w' [= _ <-].
Qed.

Lemma keeps_help_loop names : keeps_history (help_loop names).
Proof.
  induction names as [|name names IH]; [apply keeps_ret|].
  cbn [help_loop]. apply keeps_seq; [apply keeps_print | done].
Qed.

Lemma keeps_ush_help args : keeps_history (ush_help args).
Proof.
  unfold ush_help.
  repeat (apply keeps_seq; [first [apply keeps_print | apply keeps_help_loop]|]).
  apply keeps_ret.
Qed.

Lemma keeps_echo_loop rest : keeps_history (echo_loop rest).
Proof.
  induction rest as [|arg rest IH]; [apply keeps_ret|].
  cbn [echo_loop]. apply keeps_seq; [apply keeps_print | done].
Qed.

Lemma keeps_ush_echo args : keeps_history (ush_echo args).
Proof.
  unfold ush_echo.
  apply keeps_seq; [apply keeps_echo_loop|].
  apply keeps_seq; [apply keeps_print | apply keeps_ret].
Qed.

Lemma keeps_history_loop fuel :
  ∀ i num, keeps_history (history_loop os fuel i num).
Proof.
  induction fuel as [|fuel IH]; intros i num; [apply keeps_unfinished|].
  cbn [history_loop]. apply keeps_bind; [apply keeps_get_world|]. intros w.
  apply keeps_bind.
  - repeat case_match; try apply keeps_ret.
    apply keeps_seq; [apply keeps_print | apply keeps_ret].
  - intros num'. case_match; [apply keeps_ret | apply IH].
Qed.

Lemma keeps_ush_history args : keeps_history (ush_history os args).
Proof.
  unfold ush_history. apply keeps_bind; [apply keeps_get_world|]. intros w.
  apply keeps_seq; [apply keeps_history_loop | apply keeps_ret].
Qed.

Lemma keeps_pwd_loop fuel : ∀ size, keeps_history (pwd_loop os fuel size).
Proof.
  induction fuel as [|fuel IH]; intros size; [apply keeps_unfinished|].
  cbn [pwd_loop]. apply keeps_bind; [apply keeps_malloc|]. intros granted.
  destruct granted; cbn [negb]; [|apply keeps_allocation_error].
  apply keeps_bind; [apply keeps_getcwd|]. intros [e|dir].
  - destruct (is_ERANGE e); cbn [negb]; [apply IH|].
    apply keeps_seq; [apply keeps_perror | apply keeps_ret].
  - apply keeps_seq; [apply keeps_print | apply keeps_ret].
Qed.

Lemma keeps_ush_launch args : keeps_history (ush_launch os args).
Proof.
  unfold ush_launch. destruct (fork_outcome os args).
  - destruct (execvp_outcome os args); [|apply keeps_exit].
    apply keeps_seq; [apply keeps_perror | apply keeps_exit].
  - apply keeps_seq; [apply keeps_perror | apply keeps_ret].
  - apply keeps_ret.
Qed.

(** No command, builtin or external, touches the history buffer; only
    the loop's own call of [add_to_history_util] does. *)
Lemma keeps_ush_execute args : keeps_history (ush_execute os args).
Proof.
  destruct args as [|a rest]; cbn [ush_execute]; [apply keeps_ret|].
  cbn [ush_num_builtins builtin_str builtin_func length zip zip_with take dispatch].
  destruct (streq a (lit "cd")); [apply keeps_ush_cd|].
  destruct (streq a (lit "help")); [apply keeps_ush_help|].
  destruct (streq a (lit "exit")); [apply keeps_ret|].
  destruct (streq a (lit "echo")); [apply keeps_ush_echo|].
  destruct (streq a (lit "history")); [apply keeps_ush_history|].
  destruct (streq a (lit "pwd")); [apply keeps_pwd_loop|].
  apply keeps_ush_launch.
Qed.

(** What the loop records for a line with a command (and fewer than 64
    tokens): the delimiters before the first token and that token, the
    part of the buffer [strtok] left before its first terminator. *)
Lemma ush_loop_body_records_first_token line rest t1 ts w c w' :
  alloc_ok os (sizeof_ptr os * USH_TOK_BUFSIZE) = true →
  w_stdin w = line :: rest →
  tokens_of (cstr line) = t1 :: ts →
  length (t1 :: ts) < USH_TOK_BUFSIZE →
  history_pos w < length (history_str w) →
  ush_loop_body os w = Ret c w' →
  ∃ d rest' entry,
    line ++ [NUL] = d ++ t1 ++ rest' ∧ Forall delim_char d ∧
    history_str w' !! history_pos w = Some (Some entry) ∧
    cstr (blk_bytes entry) = d ++ t1 ∧
    history_pos w' = (history_pos w + 1) mod USH_MAX_HISTORY_COUNT.
Proof.
  intros Halloc Hin Htoks Hcount Hpos.
  unfold ush_loop_body, print, ush_read_line. sh_unfold.
  cbn [w_stdin set_stdout]. rewrite Hin. cbn [set_stdin].
  edestruct (ush_split_line_small os (line ++ [NUL]))
    as (offs & line' & -> & Hargs & _ & Hfirst);
    [exact Halloc | by rewrite cstr_app_nul, Htoks |].
  rewrite cstr_app_nul, Htoks in Hargs, Hfirst.
  destruct (Hfirst t1 ts eq_refl) as (d & rest' & Eline & Hd & Ecstr).
  rewrite args_of_texts in Hargs.
  destruct offs as [|o offs]; [discriminate|].
  cbn [ta_slots map app lookup list_lookup is_null negb].
  destruct (alloc_ok os (strlen line' * 1)) eqn:Ea.
  2:{ by rewrite add_to_history_util_refused. }
  rewrite add_to_history_util_spec by done.
  destruct (ush_execute os _ _) as [c1 w1| |] eqn:Eex; [|done..].
  intros [= <- <-].
  destruct (keeps_ush_execute _ _ _ _ Eex) as [Es Ep].
  cbn [history_str history_pos set_history set_oob set_heap set_stdin set_stdout]
    in Es, Ep.
  exists d, rest', (entry_of line'). split; [done|]. split; [done|].
  rewrite Es, Ep. split; [by apply list_lookup_insert_eq|].
  split; [|done]. cbn [entry_of blk_bytes]. by rewrite cstr_terminated.
Qed.

End Frame.

(** The two tokenizations the specification lists. *)
Example split_echo_a_b_c :
  ∃ tokens line' w',
    ush_split_line os64 (lit "echo  a b" ++ [TAB] ++ lit "c" ++ [NUL]) (session [])
    = Ret (tokens, line') w' ∧
    args_of line' (ta_slots tokens) = [lit "echo"; lit "a"; lit "b"; lit "c"] ∧
    length (ta_slots tokens) = 5 ∧ ta_slots tokens !! 4 = Some Null.
Proof. eexists _, _, _. split; [vm_compute; reflexivity|]. by vm_compute. Qed.

Example split_only_delimiters :
  ∃ line' w',
    ush_split_line os64 (lit " ()" ++ [TAB; DQUOTE; LF; NUL]) (session [])
    = Ret (TokArray 512 [Null], line') w'.
Proof. eexists _, _. vm_compute. reflexivity. Qed.

(** * Frames *)

Lemma stdout_grows_frame : frame stdout_grows.
Proof.
  split; unfold stdout_grows; cbn [w_stdout set_stdout set_stderr set_heap set_oob].
  - intros w. exists []. by rewrite app_nil_r.
  - intros w1 w2 w3 [s1 H1] [s2 H2]. exists (s1 ++ s2).
    by rewrite H2, H1, app_assoc.
  - intros w s. by exists s.
  - intros w s. exists []. by rewrite app_nil_r.
  - intros w s. exists []. by rewrite app_nil_r.
  - intros w s. exists []. by rewrite app_nil_r.
Qed.

Lemma stderr_grows_frame : frame stderr_grows.
Proof.
  split; unfold stderr_grows; cbn [w_stderr set_stdout set_stderr set_heap set_oob].
  - intros w. exists []. by rewrite app_nil_r.
  - intros w1 w2 w3 [s1 H1] [s2 H2]. exists (s1 ++ s2).
    by rewrite H2, H1, app_assoc.
  - intros w s. exists []. by rewrite app_nil_r.
  - intros w s. by exists s.
  - intros w s. exists []. by rewrite app_nil_r.
  - intros w s. exists []. by rewrite app_nil_r.
Qed.

Lemma same_stdin_frame : frame same_stdin.
Proof. split; unfold same_stdin; try done. intros w1 w2 w3 H1 H2. congruence. Qed.

Lemma same_cwd_frame : frame same_cwd.
Proof. split; unfold same_cwd; try done. intros w1 w2 w3 H1 H2. congruence. Qed.

Lemma same_history_frame : frame same_history.
Proof.
  split; unfold same_history; try done.
  intros w1 w2 w3 [H1 H1'] [H2 H2']. split; congruence.
Qed.

Lemma keeps_wf_frame : frame keeps_wf.
Proof. split; unfold keeps_wf; try done. intros w1 w2 w3 H1 H2. auto. Qed.

Section Frames.
Context (R : world → world → Prop) (HR : frame R).

Lemma preserves_ret {A} (a : A) : preserves R (mret a).
Proof. intros w b w' [= _ <-]. apply (frame_refl R HR). Qed.

Lemma preserves_bind {A B} (m : sh A) (k : A → sh B) :
  preserves R m → (∀ a, preserves R (k a)) → preserves R (sh_bind m k).
Proof.
  intros Hm Hk w b w' (a & w1 & H1 & H2)%bind_inv.
  eapply (frame_trans R HR); [by eapply Hm | by eapply Hk].
Qed.

Lemma preserves_seq {A B} (m : sh A) (k : sh B) :
  preserves R m → preserves R k → preserves R (m;; k).
Proof. intros Hm Hk. apply preserves_bind; [done | by intros _]. Qed.

Lemma preserves_print s : preserves R (print s).
Proof. intros w a w' [= _ <-]. apply (frame_stdout R HR). Qed.

Lemma preserves_eprint s : preserves R (eprint s).
Proof. intros w a w' [= _ <-]. apply (frame_stderr R HR). Qed.

Lemma preserves_violate v : preserves R (violate v).
Proof. intros w a w' [= _ <-]. apply (frame_oob R HR). Qed.

Lemma preserves_exit {A} c : preserves R (exit c : sh A).
Proof. by intros w a w'. Qed.

Lemma preserves_unfinished {A} : preserves R (unfinished : sh A).
Proof. by intros w a w'. Qed.

Lemma preserves_get_world : preserves R get_world.
Proof. intros w a w' [= _ <-]. apply (frame_refl R HR). Qed.

Context (os : os_env).

Lemma preserves_perror e : preserves R (perror os e).
Proof. apply preserves_eprint. Qed.

Lemma preserves_malloc n : preserves R (malloc os n).
Proof.
  unfold malloc. destruct (alloc_ok os n); [|apply preserves_ret].
  apply preserves_seq; [|apply preserves_ret].
  intros w a w' [= _ <-]. apply (frame_heap R HR).
Qed.

Lemma preserves_allocation_error {A} : preserves R (allocation_error : sh A).
Proof.
  unfold allocation_error.
  apply preserves_seq; [apply preserves_eprint | apply preserves_exit].
Qed.

Lemma preserves_getcwd size : preserves R (getcwd os size).
Proof.
  unfold getcwd. apply preserves_bind; [apply preserves_get_world|]. intros w.
  repeat case_match; apply preserves_ret.
Qed.

Lemma preserves_store_slot a i v : preserves R (store_slot os a i v).
Proof.
  unfold store_slot. case_match; [apply preserves_ret|].
  apply preserves_seq; [apply preserves_violate | apply preserves_ret].
Qed.

Lemma preserves_grow_if_full a bufsize pos :
  preserves R (grow_if_full os a bufsize pos).
Proof.
  unfold grow_if_full. case_match; [|apply preserves_ret].
  apply preserves_bind.
  - unfold realloc_tokens, realloc.
    apply preserves_bind; [apply preserves_malloc|].
    intros []; apply preserves_ret.
  - intros [ptr|]; [apply preserves_ret | apply preserves_allocation_error].
Qed.

Lemma preserves_split_loop fuel : ∀ line save token a bufsize pos,
  preserves R (split_loop os fuel line save token a bufsize pos).
Proof.
  induction fuel as [|fuel IH]; intros line save token a bufsize pos;
    destruct token as [t|]; cbn [split_loop];
    try (apply preserves_bind; [apply preserves_store_slot|];
         intros ?; apply preserves_ret).
  - apply preserves_unfinished.
  - apply preserves_bind; [apply preserves_store_slot|]. intros a1.
    apply preserves_bind; [apply preserves_grow_if_full|]. intros [a2 b2].
    destruct (strtok line save USH_TOK_DELIM) as [[tok' line1] save1].
    apply IH.
Qed.

Lemma preserves_ush_split_line line : preserves R (ush_split_line os line).
Proof.
  unfold ush_split_line. apply preserves_bind; [apply preserves_malloc|].
  intros []; cbn [negb]; [|apply preserves_allocation_error].
  destruct (strtok line 0 USH_TOK_DELIM) as [[tok line1] save1].
  apply preserves_split_loop.
Qed.

Lemma preserves_help_loop names : preserves R (help_loop names).
Proof.
  induction names as [|name names IH]; [apply preserves_ret|].
  cbn [help_loop]. apply preserves_seq; [apply preserves_print | done].
Qed.

Lemma preserves_ush_help args : preserves R (ush_help args).
Proof.
  unfold ush_help.
  repeat (apply preserves_seq;
          [first [apply preserves_print | apply preserves_help_loop]|]).
  apply preserves_ret.
Qed.

Lemma preserves_echo_loop rest : preserves R (echo_loop rest).
Proof.
  induction rest as [|arg rest IH]; [apply preserves_ret|].
  cbn [echo_loop]. apply preserves_seq; [apply preserves_print | done].
Qed.

Lemma preserves_ush_echo args : preserves R (ush_echo args).
Proof.
  unfold ush_echo.
  apply preserves_seq; [apply preserves_echo_loop|].
  apply preserves_seq; [apply preserves_print | apply preserves_ret].
Qed.

Lemma preserves_history_loop fuel : ∀ i num,
  preserves R (history_loop os fuel i num).
Proof.
  induction fuel as [|fuel IH]; intros i num; [apply preserves_unfinished|].
  cbn [history_loop]. apply preserves_bind; [apply preserves_get_world|].
  intros w. apply preserves_bind.
  - repeat case_match; try apply preserves_ret.
    apply preserves_seq; [apply preserves_print | apply preserves_ret].
  - intros num'. case_match; [apply preserves_ret | apply IH].
Qed.

Lemma preserves_ush_history args : preserves R (ush_history os args).
Proof.
  unfold ush_history. apply preserves_bind; [apply preserves_get_world|].
  intros w.
  apply preserves_seq; [apply preserves_history_loop | apply preserves_ret].
Qed.

Lemma preserves_pwd_loop fuel : ∀ size, preserves R (pwd_loop os fuel size).
Proof.
  induction fuel as [|fuel IH]; intros size; [apply preserves_unfinished|].
  cbn [pwd_loop]. apply preserves_bind; [apply preserves_malloc|].
  intros granted.
  destruct granted; cbn [negb]; [|apply preserves_allocation_error].
  apply preserves_bind; [apply preserves_getcwd|]. intros [e|dir].
  - destruct (is_ERANGE e); cbn [negb]; [apply IH|].
    apply preserves_seq; [apply preserves_perror | apply preserves_ret].
  - apply preserves_seq; [apply preserves_print | apply preserves_ret].
Qed.

Lemma preserves_ush_launch args : preserves R (ush_launch os args).
Proof.
  unfold ush_launch. destruct (fork_outcome os args).
  - destruct (execvp_outcome os args); [|apply preserves_exit].
    apply preserves_seq; [apply preserves_perror | apply preserves_exit].
  - apply preserves_seq; [apply preserves_perror | apply preserves_ret].
  - apply preserves_ret.
Qed.

(** Every row of the table but [cd], and the launcher. *)
Lemma preserves_ush_execute_but_cd args :
  (∀ a rest, args = a :: rest → cstr a ≠ lit "cd") →
  preserves R (ush_execute os args).
Proof.
  intros Hcd. destruct args as [|a rest]; cbn [ush_execute]; [apply preserves_ret|].
  cbn [ush_num_builtins builtin_str builtin_func length zip zip_with take dispatch].
  destruct (streq a (lit "cd")) eqn:E.
  { apply streq_lit in E. by destruct (Hcd a rest eq_refl). }
  destruct (streq a (lit "help")); [apply preserves_ush_help|].
  destruct (streq a (lit "exit")); [apply preserves_ret|].
  destruct (streq a (lit "echo")); [apply preserves_ush_echo|].
  destruct (streq a (lit "history")); [apply preserves_ush_history|].
  destruct (streq a (lit "pwd")); [apply preserves_pwd_loop|].
  apply preserves_ush_launch.
Qed.

(** With [cd], for a relation that its change of directory respects. *)
Lemma preserves_ush_cd args :
  (∀ w d, R w (set_cwd d w)) → preserves R (ush_cd os args).
Proof.
  intros Hcwd. unfold ush_cd. apply preserves_seq; [|apply preserves_ret].
  destruct (args !! 1); [|apply preserves_eprint].
  apply preserves_bind; [apply preserves_get_world|]. intros w.
  destruct (chdir_result os (w_cwd w) l); [apply preserves_perror|].
  intros w1 a w' [= _ <-]. apply Hcwd.
Qed.

Lemma preserves_ush_execute args :
  (∀ w d, R w (set_cwd d w)) → preserves R (ush_execute os args).
Proof.
  intros Hcwd. destruct args as [|a rest]; cbn [ush_execute]; [apply preserves_ret|].
  cbn [ush_num_builtins builtin_str builtin_func length zip zip_with take dispatch].
  destruct (streq a (lit "cd")); [by apply preserves_ush_cd|].
  destruct (streq a (lit "help")); [apply preserves_ush_help|].
  destruct (streq a (lit "exit")); [apply preserves_ret|].
  destruct (streq a (lit "echo")); [apply preserves_ush_echo|].
  destruct (streq a (lit "history")); [apply preserves_ush_history|].
  destruct (streq a (lit "pwd")); [apply preserves_pwd_loop|].
  apply preserves_ush_launch.
Qed.

(** The loop, for a relation that also holds across reading a line and
    recording one. *)
Lemma preserves_ush_loop_body :
  (∀ w d, R w (set_cwd d w)) →
  (∀ w i, R w (set_stdin i w)) →
  (∀ line, preserves R (add_to_history_util os line)) →
  preserves R (ush_loop_body os).
Proof.
  intros Hcwd Hin Hadd. unfold ush_loop_body.
  apply preserves_seq; [apply preserves_print|].
  apply preserves_bind.
  { unfold ush_read_line. apply preserves_bind; [apply preserves_get_world|].
    intros w. destruct (w_stdin w); [apply preserves_unfinished|].
    apply preserves_seq; [|apply preserves_ret].
    intros w1 a w' [= _ <-]. apply Hin. }
  intros line. apply preserves_bind; [apply preserves_ush_split_line|].
  intros [tokens line']. apply preserves_seq.
  { case_match; [apply Hadd | apply preserves_ret]. }
  apply preserves_bind; [by apply preserves_ush_execute|].
  intros status. apply preserves_ret.
Qed.

Lemma preserves_ush_loop fuel :
  (∀ w d, R w (set_cwd d w)) →
  (∀ w i, R w (set_stdin i w)) →
  (∀ line, preserves R (add_to_history_util os line)) →
  preserves R (ush_loop os fuel).
Proof.
  intros Hcwd Hin Hadd.
  induction fuel as [|fuel IH]; [apply preserves_unfinished|].
  cbn [ush_loop]. apply preserves_bind; [by apply preserves_ush_loop_body|].
  intros status. case_match; [apply preserves_ret | apply IH].
Qed.

End Frames.

Lemma preserves_add_to_history_util R os line :
  frame R → (∀ w h p, R w (set_history h p w)) →
  preserves R (add_to_history_util os line).
Proof.
  intros HR Hh. unfold add_to_history_util.
  apply preserves_bind; [done | by apply preserves_malloc|].
  intros []; cbn [negb]; [|by apply preserves_allocation_error].
  apply preserves_bind; [done| |].
  - unfold strcpy. apply preserves_seq; [done| |by apply preserves_ret].
    case_match; [by apply preserves_violate | by apply preserves_ret].
  - intros entry w a w' [= _ <-]. apply Hh.
Qed.

Lemma keeps_wf_add_to_history_util os line :
  preserves keeps_wf (add_to_history_util os line).
Proof.
  intros w [] w' H [Hlen Hpos].
  destruct (alloc_ok os (strlen line * 1)) eqn:E.
  - rewrite add_to_history_util_spec in H by done. injection H as <-.
    assert (Hmod : (history_pos w + 1) mod 20 < 20)
      by (apply Nat.mod_upper_bound; lia).
    split; [|exact Hmod].
    cbn [history_str set_history]. by rewrite length_insert.
  - by rewrite add_to_history_util_refused in H.
Qed.

(** * The dispatch table *)

Lemma streq_true a name : cstr a = cstr name → streq a name = true.
Proof. apply streq_lit. Qed.

Lemma streq_false a name : cstr a ≠ cstr name → streq a name = false.
Proof.
  intros H. destruct (streq a name) eqn:E; [|done]. by apply streq_lit in E.
Qed.

Ltac streq_names a Ha :=
  repeat match goal with
         | |- context [streq a ?n] =>
             first [ rewrite (streq_true a n) by (rewrite Ha; reflexivity)
                   | rewrite (streq_false a n) by (rewrite Ha; by vm_compute) ]
         end.

Lemma ush_execute_builtin os i name func a rest w :
  builtin_str !! i = Some name → builtin_func os !! i = Some func →
  cstr a = name →
  ush_execute os (a :: rest) w = func (a :: rest) w.
Proof.
  intros Hn Hf Ha. cbn [ush_execute].
  cbn [ush_num_builtins builtin_str builtin_func length zip zip_with take dispatch].
  do 6 (destruct i as [|i];
        [cbn in Hn, Hf; injection Hn as <-; injection Hf as <-;
         streq_names a Ha; reflexivity|]).
  by destruct i.
Qed.

Lemma ush_execute_external os a rest w :
  (∀ name, name ∈ builtin_str → cstr a ≠ name) →
  ush_execute os (a :: rest) w = ush_launch os (a :: rest) w.
Proof.
  intros Hne. cbn [ush_execute].
  cbn [ush_num_builtins builtin_str builtin_func length zip zip_with take dispatch].
  rewrite !streq_false; [done|..];
    change (cstr (lit ?s)) with (lit s); apply Hne;
    apply (bool_decide_unpack _); by vm_compute.
Qed.

(** X1: the two tables have the 6 entries [ush_num_builtins] counts and
    no name twice; a command whose name is entry [i] of [builtin_str] runs
    entry [i] of [builtin_func] on the whole argument list, and a command
    with any other name goes to the launcher. *)
Theorem X1_dispatch_by_table os :
  length builtin_str = ush_num_builtins ∧
  length (builtin_func os) = ush_num_builtins ∧
  NoDup builtin_str ∧
  (∀ i name func a rest w,
     builtin_str !! i = Some name → builtin_func os !! i = Some func →
     cstr a = name →
     ush_execute os (a :: rest) w = func (a :: rest) w) ∧
  (∀ a rest w,
     (∀ name, name ∈ builtin_str → cstr a ≠ name) →
     ush_execute os (a :: rest) w = ush_launch os (a :: rest) w).
Proof.
  split; [done|]. split; [done|]. split.
  { apply (bool_decide_unpack _). by vm_compute. }
  split; [apply ush_execute_builtin | apply ush_execute_external].
Qed.

Lemma X1_dispatch_by_table_witness :
  ush_execute os64 [lit "echo"; lit "hi"] (session [])
  = ush_echo [lit "echo"; lit "hi"] (session []) ∧
  ush_execute os64 [lit "Echo"; lit "hi"] (session [])
  = ush_launch os64 [lit "Echo"; lit "hi"] (session []).
Proof.
  destruct (X1_dispatch_by_table os64) as (_ & _ & _ & Hb & He). split.
  - apply (Hb 3 (lit "echo")); reflexivity.
  - apply He. intros name Hin E. revert Hin. rewrite <- E.
    apply (bool_decide_unpack _). by vm_compute.
Defined.

(** * [cd] and [pwd] *)

Lemma ush_cd_changed os cmd dir rest w d' :
  chdir_result os (w_cwd w) dir = inr d' →
  ush_cd os (cmd :: dir :: rest) w = Ret 1%Z (set_cwd d' w).
Proof. intros H. unfold ush_cd. cbn [lookup list_lookup]. sh_unfold. by rewrite H. Qed.

Lemma ush_cd_failed os cmd dir rest w e :
  chdir_result os (w_cwd w) dir = inl e →
  ush_cd os (cmd :: dir :: rest) w
  = Ret 1%Z (set_stderr (w_stderr w ++ lit "ush: " ++ strerror os e ++ [LF]) w).
Proof. intros H. unfold ush_cd. cbn [lookup list_lookup]. sh_unfold. by rewrite H. Qed.

Lemma ush_cd_no_argument os cmd w :
  ush_cd os [cmd] w
  = Ret 1%Z (set_stderr
               (w_stderr w ++ lit "ush: expected argument with " ++ [DQUOTE]
                ++ lit "cd" ++ [DQUOTE; LF]) w).
Proof. reflexivity. Qed.

(** [pwd] prints the directory as soon as a doubling of the first size
    takes it. *)
Lemma pwd_loop_prints os :
  (∀ n, alloc_ok os n = true) → getcwd_failure os = None →
  ∀ m size fuel w,
    m < fuel → (0 < size)%Z → (size * 2 ^ Z.of_nat m < UINT_MODULUS)%Z →
    (Z.of_nat (strlen (w_cwd w)) + 1 ≤ size * 2 ^ Z.of_nat m)%Z →
    ∃ w', pwd_loop os fuel size w = Ret 1%Z w' ∧
          w_stdout w' = w_stdout w ++ cstr (w_cwd w) ∧
          w_stderr w' = w_stderr w ∧ w_cwd w' = w_cwd w.
Proof.
  intros Halloc Hcwd.
  induction m as [|m IH]; intros size fuel w Hfuel Hpos Hmax Hfit;
    (destruct fuel as [|fuel]; [lia|]);
    cbn [pwd_loop]; unfold realloc, sh_bind at 1;
    rewrite malloc_granted by done; cbn [negb];
    unfold sh_bind at 1; unfold getcwd; sh_unfold; rewrite Hcwd;
    cbn [w_cwd set_heap];
    (destruct (Z.eqb_spec size 0) as [E0|_]; [lia|]);
    (destruct (Z.leb_spec (Z.of_nat (strlen (w_cwd w)) + 1) size) as [Hle|Hlt];
     [unfold print; sh_unfold; by eexists|]).
  - change (Z.of_nat 0) with 0%Z in *. rewrite Z.pow_0_r, Z.mul_1_r in *. lia.
  - cbn [is_ERANGE negb].
    assert (Epow : (size * 2 * 2 ^ Z.of_nat m = size * 2 ^ Z.of_nat (S m))%Z).
    { rewrite Nat2Z.inj_succ, Z.pow_succ_r by lia. lia. }
    assert (Hdouble : (0 < size * 2 < UINT_MODULUS)%Z).
    { split; [lia|].
      assert (1 ≤ 2 ^ Z.of_nat m)%Z by (apply Z.pow_le_mono_r with (b := 0%Z); lia).
      nia. }
    rewrite Z.mod_small by lia.
    destruct (IH (size * 2)%Z fuel (set_heap (w_heap w ++ [Z.to_nat size]) w))
      as (w' & Hrun & Hout & Herr & Hdir); cbn [w_cwd set_heap]; try lia.
    by exists w'.
Qed.

(** X2: after a [cd] that succeeds, [pwd] prints the directory [chdir]
    moved to and nothing goes to standard error. *)
Theorem X2_cd_then_pwd_prints_new_directory os cmd dir rest args w d' m :
  (∀ n, alloc_ok os n = true) → getcwd_failure os = None →
  chdir_result os (w_cwd w) dir = inr d' →
  (0 < pwd_initial_size (pathconf_path_max os))%Z →
  (pwd_initial_size (pathconf_path_max os) * 2 ^ Z.of_nat m < UINT_MODULUS)%Z →
  (Z.of_nat (strlen d') + 1
   ≤ pwd_initial_size (pathconf_path_max os) * 2 ^ Z.of_nat m)%Z →
  ∃ w1 w2,
    ush_cd os (cmd :: dir :: rest) w = Ret 1%Z w1 ∧
    ush_pwd os args w1 = Ret 1%Z w2 ∧
    w_stdout w2 = w_stdout w ++ cstr d' ∧
    w_stderr w2 = w_stderr w ∧ w_cwd w2 = d'.
Proof.
  intros Halloc Hcwd Hch Hpos Hmax Hfit.
  exists (set_cwd d' w). unfold ush_pwd.
  destruct (pwd_loop_prints os Halloc Hcwd m
              (pwd_initial_size (pathconf_path_max os)) 64 (set_cwd d' w))
    as (w2 & Hrun & Hout & Herr & Hdir); try done.
  { assert (2 ^ Z.of_nat m < 2 ^ 32)%Z as Hm.
    { assert (0 < 2 ^ Z.of_nat m)%Z by (apply Z.pow_pos_nonneg; lia).
      unfold UINT_MODULUS in Hmax. nia. }
    apply Z.pow_lt_mono_r_iff in Hm; lia. }
  exists w2. split; [by apply ush_cd_changed|]. by split.
Qed.

Lemma X2_cd_then_pwd_prints_new_directory_witness :
  ∃ w1 w2,
    ush_cd os64 [lit "cd"; lit "/tmp"] (session []) = Ret 1%Z w1 ∧
    ush_pwd os64 [lit "pwd"] w1 = Ret 1%Z w2 ∧
    w_stdout w2 = w_stdout (session []) ++ cstr (lit "/tmp") ∧
    w_stderr w2 = w_stderr (session []) ∧ w_cwd w2 = lit "/tmp".
Proof.
  apply (X2_cd_then_pwd_prints_new_directory os64 (lit "cd") (lit "/tmp") []
           [lit "pwd"] (session []) (lit "/tmp") 0); try reflexivity.
  by vm_compute.
Defined.

(** X3: a [cd] that fails, or that has no argument, reports on standard
    error, returns 1 and leaves the directory alone: [pwd] then prints the
    directory of before. *)
Theorem X3_cd_failure_keeps_directory os cmd args w m :
  (∀ n, alloc_ok os n = true) → getcwd_failure os = None →
  (0 < pwd_initial_size (pathconf_path_max os))%Z →
  (pwd_initial_size (pathconf_path_max os) * 2 ^ Z.of_nat m < UINT_MODULUS)%Z →
  (Z.of_nat (strlen (w_cwd w)) + 1
   ≤ pwd_initial_size (pathconf_path_max os) * 2 ^ Z.of_nat m)%Z →
  (∀ dir rest e,
     chdir_result os (w_cwd w) dir = inl e →
     ∃ w1 w2,
       ush_cd os (cmd :: dir :: rest) w = Ret 1%Z w1 ∧
       w_stderr w1 = w_stderr w ++ lit "ush: " ++ strerror os e ++ [LF] ∧
       ush_pwd os args w1 = Ret 1%Z w2 ∧
       w_stdout w2 = w_stdout w ++ cstr (w_cwd w)) ∧
  (∃ w1 w2,
     ush_cd os [cmd] w = Ret 1%Z w1 ∧
     w_stderr w1 = w_stderr w ++ lit "ush: expected argument with "
                   ++ [DQUOTE] ++ lit "cd" ++ [DQUOTE; LF] ∧
     ush_pwd os args w1 = Ret 1%Z w2 ∧
     w_stdout w2 = w_stdout w ++ cstr (w_cwd w)).
Proof.
  intros Halloc Hcwd Hpos Hmax Hfit.
  assert (Hm : m < 64).
  { assert (2 ^ Z.of_nat m < 2 ^ 32)%Z as Hm.
    { assert (0 < 2 ^ Z.of_nat m)%Z by (apply Z.pow_pos_nonneg; lia).
      unfold UINT_MODULUS in Hmax. nia. }
    apply Z.pow_lt_mono_r_iff in Hm; lia. }
  assert (Hpwd : ∀ s, ∃ w2,
    ush_pwd os args (set_stderr s w) = Ret 1%Z w2 ∧
    w_stdout w2 = w_stdout w ++ cstr (w_cwd w)).
  { intros s. unfold ush_pwd.
    destruct (pwd_loop_prints os Halloc Hcwd m
                (pwd_initial_size (pathconf_path_max os)) 64 (set_stderr s w))
      as (w2 & Hrun & Hout & _); try done.
    by exists w2. }
  split.
  - intros dir rest e Hch.
    destruct (Hpwd (w_stderr w ++ lit "ush: " ++ strerror os e ++ [LF]))
      as (w2 & Hrun & Hout).
    eexists _, w2. split; [by apply ush_cd_failed|]. by split.
  - destruct (Hpwd (w_stderr w ++ lit "ush: expected argument with "
                    ++ [DQUOTE] ++ lit "cd" ++ [DQUOTE; LF]))
      as (w2 & Hrun & Hout).
    eexists _, w2. split; [apply ush_cd_no_argument|]. by split.
Qed.

Lemma X3_cd_failure_keeps_directory_witness :
  ∃ w1 w2,
    ush_cd os64 [lit "cd"] (session []) = Ret 1%Z w1 ∧
    w_stderr w1 = w_stderr (session []) ++ lit "ush: expected argument with "
                  ++ [DQUOTE] ++ lit "cd" ++ [DQUOTE; LF] ∧
    ush_pwd os64 [lit "pwd"] w1 = Ret 1%Z w2 ∧
    w_stdout w2 = w_stdout (session []) ++ cstr (w_cwd (session [])).
Proof.
  apply (X3_cd_failure_keeps_directory os64 (lit "cd") [lit "pwd"] (session []) 0);
    try reflexivity.
  by vm_compute.
Defined.

(** * What stays as it was *)

(** X4: only [cd] changes the working directory: the tokenizer, the
    recorder and every command whose name is not [cd], builtin or
    external, return with the directory they found. *)
Theorem X4_only_cd_changes_directory os :
  (∀ args w c w',
     (∀ a rest, args = a :: rest → cstr a ≠ lit "cd") →
     ush_execute os args w = Ret c w' → w_cwd w' = w_cwd w) ∧
  (∀ line w r w', ush_split_line os line w = Ret r w' → w_cwd w' = w_cwd w) ∧
  (∀ line w u w', add_to_history_util os line w = Ret u w' → w_cwd w' = w_cwd w).
Proof.
  split; [|split].
  - intros args w c w' Hcd H.
    by apply (preserves_ush_execute_but_cd same_cwd same_cwd_frame os args Hcd w c w').
  - intros line w r w' H.
    by apply (preserves_ush_split_line same_cwd same_cwd_frame os line w r w').
  - intros line w u w' H.
    by apply (preserves_add_to_history_util same_cwd os line same_cwd_frame) in H.
Qed.

Lemma X4_only_cd_changes_directory_witness :
  ∃ w', ush_execute os64 [lit "pwd"] (session []) = Ret 1%Z w' ∧
        w_cwd w' = w_cwd (session []).
Proof.
  assert (E : ∃ w', ush_execute os64 [lit "pwd"] (session []) = Ret 1%Z w')
    by (eexists; vm_compute; reflexivity).
  destruct E as [w' E]. exists w'. split; [exact E|].
  apply (proj1 (X4_only_cd_changes_directory os64) [lit "pwd"] (session []) 1%Z w');
    [|exact E].
  intros a rest [= <- <-]. by vm_compute.
Defined.

(** X5: no builtin reads standard input or writes the history ring: a
    handler of the table returns with the pending input lines, the 20
    slots and the cursor it found. *)
Theorem X5_builtins_keep_input_and_history os name func args w c w' :
  (name, func) ∈ zip builtin_str (builtin_func os) →
  func args w = Ret c w' →
  w_stdin w' = w_stdin w ∧
  history_str w' = history_str w ∧ history_pos w' = history_pos w.
Proof.
  intros Hin H.
  cbn [builtin_str builtin_func zip zip_with] in Hin.
  repeat (apply elem_of_cons in Hin as [[= -> ->]|Hin]);
    try (by apply elem_of_nil in Hin); split.
  - by apply (preserves_ush_cd same_stdin same_stdin_frame os args) in H.
  - by apply (preserves_ush_cd same_history same_history_frame os args) in H.
  - by apply (preserves_ush_help same_stdin same_stdin_frame args) in H.
  - by apply (preserves_ush_help same_history same_history_frame args) in H.
  - by injection H as _ <-.
  - by injection H as _ <-.
  - by apply (preserves_ush_echo same_stdin same_stdin_frame args) in H.
  - by apply (preserves_ush_echo same_history same_history_frame args) in H.
  - by apply (preserves_ush_history same_stdin same_stdin_frame os args) in H.
  - by apply (preserves_ush_history same_history same_history_frame os args) in H.
  - by apply (preserves_pwd_loop same_stdin same_stdin_frame os) in H.
  - by apply (preserves_pwd_loop same_history same_history_frame os) in H.
Qed.

Lemma X5_builtins_keep_input_and_history_witness :
  ∃ w', ush_echo [lit "echo"; lit "hi"] (session [typed "ls"]) = Ret 1%Z w' ∧
        w_stdin w' = w_stdin (session [typed "ls"]) ∧
        history_str w' = history_str (session [typed "ls"]) ∧
        history_pos w' = history_pos (session [typed "ls"]).
Proof.
  assert (E : ∃ w', ush_echo [lit "echo"; lit "hi"] (session [typed "ls"])
                    = Ret 1%Z w')
    by (eexists; vm_compute; reflexivity).
  destruct E as [w' E]. exists w'. split; [exact E|].
  apply (X5_builtins_keep_input_and_history os64 (lit "echo") ush_echo
           [lit "echo"; lit "hi"] (session [typed "ls"]) 1%Z w'); [|exact E].
  cbn [builtin_str builtin_func zip zip_with].
  do 3 apply list_elem_of_further. apply list_elem_of_here.
Defined.

(** X6: the loop keeps the ring well formed: from 20 slots and a cursor
    below 20, every pass through the loop body, and the whole loop, end
    with 20 slots and a cursor below 20, whatever is typed. *)
Theorem X6_loop_keeps_ring_well_formed os :
  (∀ w c w', history_wf w → ush_loop_body os w = Ret c w' → history_wf w') ∧
  (∀ fuel w u w', history_wf w → ush_loop os fuel w = Ret u w' → history_wf w').
Proof.
  split.
  - intros w c w' Hwf H.
    assert (P : preserves keeps_wf (ush_loop_body os)).
    { apply preserves_ush_loop_body;
        [apply keeps_wf_frame | by intros ??? | by intros ???
        | apply keeps_wf_add_to_history_util]. }
    exact (P w c w' H Hwf).
  - intros fuel w u w' Hwf H.
    assert (P : preserves keeps_wf (ush_loop os fuel)).
    { apply preserves_ush_loop;
        [apply keeps_wf_frame | by intros ??? | by intros ???
        | apply keeps_wf_add_to_history_util]. }
    exact (P w u w' H Hwf).
Qed.

Lemma X6_loop_keeps_ring_well_formed_witness :
  ∃ w', ush_loop_body os64 (session [typed "ls"]) = Ret 1%Z w' ∧ history_wf w'.
Proof.
  assert (E : ∃ w', ush_loop_body os64 (session [typed "ls"]) = Ret 1%Z w')
    by (eexists; vm_compute; reflexivity).
  destruct E as [w' E]. exists w'. split; [exact E|].
  apply (proj1 (X6_loop_keeps_ring_well_formed os64) (session [typed "ls"]) 1%Z w');
    [|exact E].
  split; [reflexivity | unfold USH_MAX_HISTORY_COUNT; simpl; lia].
Defined.

(** * Allocation failure *)

Lemma ush_split_line_refused os line w :
  alloc_ok os (sizeof_ptr os * USH_TOK_BUFSIZE) = false →
  ush_split_line os line w
  = Exit EXIT_FAILURE (set_stderr (w_stderr w ++ allocation_error_text) w).
Proof.
  intros H. unfold ush_split_line, sh_bind. by rewrite malloc_refused.
Qed.

Lemma ush_pwd_refused os args w :
  alloc_ok os (Z.to_nat (pwd_initial_size (pathconf_path_max os))) = false →
  ush_pwd os args w
  = Exit EXIT_FAILURE (set_stderr (w_stderr w ++ allocation_error_text) w).
Proof.
  intros H. unfold ush_pwd. cbn [pwd_loop]. unfold realloc, sh_bind.
  by rewrite malloc_refused.
Qed.

(** The 64th token asks for the larger array; when [realloc] refuses,
    the process ends there. *)
Lemma split_loop_growth_refused os fuel : ∀ line save token offs w,
  alloc_ok os (USH_TOK_BUFSIZE * 2) = false →
  (∀ off, off ∈ offs → strlen (drop off line) + off ≤ save) →
  tok_ok fuel line save token →
  length offs < USH_TOK_BUFSIZE →
  USH_TOK_BUFSIZE ≤ length offs + length (remaining line save token) →
  split_loop os fuel line save token
    (TokArray (sizeof_ptr os * USH_TOK_BUFSIZE) (map Tok offs))
    USH_TOK_BUFSIZE (length offs) w
  = Exit EXIT_FAILURE (set_stderr (w_stderr w ++ allocation_error_text) w).
Proof.
  induction fuel as [|fuel IH];
    intros line save token offs w Halloc Hoffs Htok Hlt Hcount.
  - destruct token as [t|]; [destruct Htok as (_ & ? & ? & _); lia|].
    simpl in Hcount. lia.
  - destruct token as [t|]; [|simpl in Hcount; lia].
    destruct (strtok line save USH_TOK_DELIM) as [[tok' line1] save1] eqn:Est.
    destruct (strtok_step _ _ _ _ _ _ _ Est Htok)
      as (Htok' & Hlen & Hle & Ht & Hrem & Hkeep).
    rewrite Hrem in Hcount. simpl in Hcount.
    rewrite split_loop_Some.
    rewrite store_slot_in by (simpl; unfold USH_TOK_BUFSIZE in *; nia).
    cbn [ta_cap ta_slots]. rewrite write_at_offs.
    destruct (decide (S (length offs) = USH_TOK_BUFSIZE)) as [Efull|Hnot].
    + unfold grow_if_full. rewrite Efull, Nat.eqb_refl.
      unfold realloc_tokens, realloc, sh_bind.
      by rewrite malloc_refused.
    + rewrite grow_if_full_not by lia. rewrite Est.
      pose proof (IH line1 save1 tok' (offs ++ [t]) w Halloc) as Hrun.
      rewrite length_app, map_app in Hrun. simpl in Hrun.
      rewrite Nat.add_1_r in Hrun. apply Hrun; try done; try lia.
      intros off [Hin|Hin]%elem_of_app.
      * by apply Hkeep, Hoffs.
      * apply list_elem_of_singleton in Hin as ->. apply Hkeep.
        by destruct Htok as (_ & _ & _ & ?).
Qed.

(** X7: a refused allocation ends the process: at the tokenizer's first
    [malloc], at its [realloc] for the 64th token, at the history copy and
    at the first buffer of [pwd], the code writes [ush: allocation error]
    to standard error and exits with [EXIT_FAILURE]; nothing is printed on
    standard output and the ring is not written. *)
Theorem X7_refused_allocation_is_fatal os :
  (∀ line w,
     alloc_ok os (sizeof_ptr os * USH_TOK_BUFSIZE) = false →
     ush_split_line os line w
     = Exit EXIT_FAILURE (set_stderr (w_stderr w ++ allocation_error_text) w)) ∧
  (∀ line w,
     alloc_ok os (sizeof_ptr os * USH_TOK_BUFSIZE) = true →
     alloc_ok os (USH_TOK_BUFSIZE * 2) = false →
     USH_TOK_BUFSIZE ≤ length (tokens_of (cstr line)) →
     ush_split_line os line w
     = Exit EXIT_FAILURE
         (set_stderr (w_stderr w ++ allocation_error_text)
            (set_heap (w_heap w ++ [sizeof_ptr os * USH_TOK_BUFSIZE]) w))) ∧
  (∀ line w,
     alloc_ok os (strlen line * 1) = false →
     add_to_history_util os line w
     = Exit EXIT_FAILURE (set_stderr (w_stderr w ++ allocation_error_text) w)) ∧
  (∀ args w,
     alloc_ok os (Z.to_nat (pwd_initial_size (pathconf_path_max os))) = false →
     ush_pwd os args w
     = Exit EXIT_FAILURE (set_stderr (w_stderr w ++ allocation_error_text) w)).
Proof.
  split; [apply ush_split_line_refused|]. split.
  { intros line w H1 H2 Hcount. unfold ush_split_line, sh_bind.
    rewrite malloc_granted by done. cbn [negb].
    destruct (strtok line 0 USH_TOK_DELIM) as [[tok line1] save1] eqn:Est.
    apply strtok_first in Est as (Htok & Hrem & Hlen & _).
    rewrite (split_loop_growth_refused os (length line1) line1 save1 tok []);
      try done.
    - intros off Hin. by apply elem_of_nil in Hin.
    - simpl. unfold USH_TOK_BUFSIZE. lia.
    - rewrite Hrem. simpl. lia. }
  split; [apply add_to_history_util_refused | apply ush_pwd_refused].
Qed.

Lemma X7_refused_allocation_is_fatal_witness :
  ush_pwd (OsEnv 8 (λ _, false) 4096 None (λ _ d, inr d) (λ _, ForkParent 0)
                 (λ _, inr 0%Z) (λ _, lit "error") (λ _ _, []))
          [lit "pwd"] (session [])
  = Exit EXIT_FAILURE
      (set_stderr (w_stderr (session []) ++ allocation_error_text) (session [])).
Proof.
  apply (X7_refused_allocation_is_fatal
           (OsEnv 8 (λ _, false) 4096 None (λ _ d, inr d) (λ _, ForkParent 0)
                  (λ _, inr 0%Z) (λ _, lit "error") (λ _ _, []))).
  reflexivity.
Defined.

(** * [pwd]: its end and its error path *)

(** Whatever the system answers, [pwd] ends: it returns 1 or it exits on
    a refused allocation, and it asks for at most [33 - j] buffers from
    the [j]-th doubling on. *)
Lemma pwd_loop_ends os s0 fuel : ∀ j w,
  j ≤ 32 → 32 - j < fuel →
  ∃ w', (pwd_loop os fuel ((s0 * 2 ^ Z.of_nat j) mod UINT_MODULUS)%Z w
         = Ret 1%Z w' ∨
         pwd_loop os fuel ((s0 * 2 ^ Z.of_nat j) mod UINT_MODULUS)%Z w
         = Exit EXIT_FAILURE w') ∧
        length (w_heap w') ≤ length (w_heap w) + (33 - j).
Proof.
  induction fuel as [|fuel IH]; intros j w Hj Hfuel; [lia|].
  cbn [pwd_loop]. unfold realloc, sh_bind at 1 3.
  destruct (alloc_ok os (Z.to_nat ((s0 * 2 ^ Z.of_nat j) mod UINT_MODULUS))) eqn:Ea.
  2:{ rewrite malloc_refused by done. cbn [negb].
      unfold allocation_error, eprint. sh_unfold.
      eexists. split; [by right|]. cbn [w_heap set_stderr]. lia. }
  rewrite malloc_granted by done. cbn [negb].
  unfold sh_bind at 1 2. unfold getcwd. sh_unfold.
  destruct (Z.eqb_spec ((s0 * 2 ^ Z.of_nat j) mod UINT_MODULUS) 0) as [E0|Hne].
  { cbn [is_ERANGE negb]. unfold perror, eprint. sh_unfold.
    eexists. split; [by left|].
    cbn [w_heap set_stderr set_heap]. rewrite length_app. simpl. lia. }
  assert (Hlt : j < 32).
  { destruct (decide (j = 32)) as [->|]; [|lia]. exfalso. apply Hne.
    change (2 ^ Z.of_nat 32)%Z with UINT_MODULUS. apply Z_mod_mult. }
  assert (Hrec : ∃ w',
    (pwd_loop os fuel
       (((s0 * 2 ^ Z.of_nat j) mod UINT_MODULUS * 2) mod UINT_MODULUS)%Z
       (set_heap (w_heap w ++
                  [Z.to_nat ((s0 * 2 ^ Z.of_nat j) mod UINT_MODULUS)]) w)
     = Ret 1%Z w' ∨
     pwd_loop os fuel
       (((s0 * 2 ^ Z.of_nat j) mod UINT_MODULUS * 2) mod UINT_MODULUS)%Z
       (set_heap (w_heap w ++
                  [Z.to_nat ((s0 * 2 ^ Z.of_nat j) mod UINT_MODULUS)]) w)
     = Exit EXIT_FAILURE w') ∧
    length (w_heap w') ≤ length (w_heap w) + (33 - j)).
  { rewrite uint_double.
    destruct (IH (S j)
      (set_heap (w_heap w ++
                 [Z.to_nat ((s0 * 2 ^ Z.of_nat j) mod UINT_MODULUS)]) w))
      as (w' & Hrun & Hheap); [lia | lia |].
    exists w'. split; [done|].
    cbn [w_heap set_heap] in Hheap. rewrite length_app in Hheap.
    simpl in Hheap. lia. }
  destruct (getcwd_failure os) as [e|].
  - destruct (is_ERANGE e); cbn [negb]; [exact Hrec|].
    unfold perror, eprint. sh_unfold. eexists. split; [by left|].
    cbn [w_heap set_stderr set_heap]. rewrite length_app. simpl. lia.
  - destruct (_ <=? _)%Z.
    + unfold print. sh_unfold. eexists. split; [by left|].
      cbn [w_heap set_stdout set_heap]. rewrite length_app. simpl. lia.
    + cbn [is_ERANGE negb]. exact Hrec.
Qed.

(** X8: [pwd] never hangs: for every answer of the system it returns 1
    or exits with [EXIT_FAILURE] on a refused allocation, after at most 33
    granted buffers; the doubled [unsigned int] size reaches 0 after 32
    doublings and [getcwd] refuses a size of 0. *)
Theorem X8_pwd_always_ends os args w :
  ∃ w',
    (ush_pwd os args w = Ret 1%Z w' ∨ ush_pwd os args w = Exit EXIT_FAILURE w') ∧
    length (w_heap w') ≤ length (w_heap w) + 33.
Proof.
  unfold ush_pwd. rewrite pwd_initial_size_uint.
  destruct (pwd_loop_ends os (pwd_initial_size (pathconf_path_max os)) 64 0 w)
    as (w' & Hrun & Hheap); [lia | lia |].
  exists w'. split; [done | lia].
Qed.

(** X9: when the first buffer has size 0, or [getcwd] fails for another
    reason than the size of the buffer, [pwd] prints nothing on standard
    output, reports the error on standard error and returns 1. *)
Theorem X9_pwd_reports_retrieval_failure os args w e :
  alloc_ok os (Z.to_nat (pwd_initial_size (pathconf_path_max os))) = true →
  pwd_initial_size (pathconf_path_max os) = 0%Z ∨
  (getcwd_failure os = Some e ∧ is_ERANGE e = false) →
  ush_pwd os args w
  = Ret 1%Z
      (set_stderr
         (w_stderr w ++ lit "ush: "
          ++ strerror os (if (pwd_initial_size (pathconf_path_max os) =? 0)%Z
                          then EINVAL else e)
          ++ [LF])
         (set_heap
            (w_heap w ++ [Z.to_nat (pwd_initial_size (pathconf_path_max os))])
            w)).
Proof.
  intros Halloc Hfail. unfold ush_pwd. cbn [pwd_loop].
  unfold realloc, sh_bind at 1. rewrite malloc_granted by done. cbn [negb].
  unfold sh_bind at 1. unfold getcwd. sh_unfold.
  destruct (Z.eqb_spec (pwd_initial_size (pathconf_path_max os)) 0) as [E0|Hne].
  { cbn [is_ERANGE negb]. unfold perror, eprint. by sh_unfold. }
  destruct Hfail as [?|[Hf He]]; [done|]. rewrite Hf, He. cbn [negb].
  unfold perror, eprint. by sh_unfold.
Qed.

Lemma X9_pwd_reports_retrieval_failure_witness :
  ush_pwd (OsEnv 8 (λ _, true) 0 None (λ _ d, inr d) (λ _, ForkParent 0)
                 (λ _, inr 0%Z) (λ _, lit "error") (λ _ _, []))
          [lit "pwd"] (session [])
  = Ret 1%Z
      (set_stderr (w_stderr (session []) ++ lit "ush: " ++ lit "error" ++ [LF])
         (set_heap (w_heap (session []) ++ [0]) (session []))).
Proof.
  apply (X9_pwd_reports_retrieval_failure
           (OsEnv 8 (λ _, true) 0 None (λ _ d, inr d) (λ _, ForkParent 0)
                  (λ _, inr 0%Z) (λ _, lit "error") (λ _ _, []))
           [lit "pwd"] (session []) EINVAL); [reflexivity | by left].
Defined.

(** * More on the tokenizer *)

Lemma cut_refl line : cut line line.
Proof. split; [done|]. intros i. by left. Qed.

Lemma cut_trans l1 l2 l3 : cut l1 l2 → cut l2 l3 → cut l1 l3.
Proof.
  intros [Hl1 H1] [Hl2 H2]. split; [congruence|]. intros i.
  destruct (H2 i) as [E2|(E2 & c & Hc & Hd)].
  - rewrite E2. apply H1.
  - destruct (H1 i) as [E1|(E1 & _)].
    + right. split; [done|]. exists c. by rewrite <- E1.
    + rewrite E1 in Hc. injection Hc as <-.
      apply delim_nonnul in Hd. by vm_compute in Hd.
Qed.

Lemma strtok_cut buf s tok buf' s' :
  strtok buf s USH_TOK_DELIM = (tok, buf', s') → cut buf buf'.
Proof.
  unfold strtok.
  destruct (is_nul (char_at buf _)); [intros [= _ <- _]; apply cut_refl|].
  set (s1 := s + strspn (drop s buf) USH_TOK_DELIM).
  destruct (strcspn_spec (drop s1 buf)) as [_ Hend].
  rewrite drop_drop, char_at_drop in Hend. unfold at_end in Hend.
  rewrite char_at_drop in Hend.
  set (e := s1 + strcspn (drop s1 buf) USH_TOK_DELIM) in *.
  destruct (is_nul (char_at buf e)) eqn:En; [intros [= _ <- _]; apply cut_refl|].
  destruct Hend as [?|Hd]; [congruence|].
  intros [= _ <- _]. split; [apply length_insert|]. intros i.
  unfold char_at in *. rewrite nth_lookup in En, Hd.
  destruct (buf !! e) as [c|] eqn:Ec; [|by vm_compute in En]. simpl in Hd.
  destruct (decide (i = e)) as [->|Hne].
  - right. split; [|by exists c].
    apply list_lookup_insert_eq. by eapply lookup_lt_Some.
  - left. by apply list_lookup_insert_ne.
Qed.

Lemma split_loop_cut os fuel : ∀ line save token a bufsize pos w tokens line' w',
  split_loop os fuel line save token a bufsize pos w = Ret (tokens, line') w' →
  cut line line'.
Proof.
  induction fuel as [|fuel IH];
    intros line save token a bufsize pos w tokens line' w' H;
    destruct token as [t|].
  - done.
  - rewrite split_loop_None in H.
    destruct (store_slot os a pos Null w); [|done..].
    injection H as _ <- _. apply cut_refl.
  - rewrite split_loop_Some in H.
    destruct (store_slot os a pos (Tok t) w) as [a1 w1| |]; [|done..].
    destruct (grow_if_full os a1 bufsize (S pos) w1) as [[a2 b2] w2| |]; [|done..].
    destruct (strtok line save USH_TOK_DELIM) as [[tok' line1] save1] eqn:Est.
    apply strtok_cut in Est. apply IH in H. by eapply cut_trans.
  - rewrite split_loop_None in H.
    destruct (store_slot os a pos Null w); [|done..].
    injection H as _ <- _. apply cut_refl.
Qed.

Lemma ush_split_line_cut os line w tokens line' w' :
  ush_split_line os line w = Ret (tokens, line') w' → cut line line'.
Proof.
  unfold ush_split_line, sh_bind.
  destruct (malloc os _ w) as [[] w1| |]; cbn [negb]; [|done..].
  destruct (strtok line 0 USH_TOK_DELIM) as [[tok line1] save1] eqn:Est.
  intros H. apply strtok_cut in Est. apply split_loop_cut in H.
  by eapply cut_trans.
Qed.

Lemma tokenization_chars (P : ascii → Prop) s toks :
  tokenization s toks → Forall P s → Forall (Forall P) toks.
Proof.
  induction 1 as [d Hd|d t Hd Ht Hw|d t c rest toks Hd Ht Hw Hc _ IH]; intros HP.
  - constructor.
  - apply Forall_app in HP as [_ HP]. by repeat constructor.
  - apply Forall_app in HP as [_ HP]. apply Forall_app in HP as [HP1 HP2].
    apply Forall_cons in HP2 as [_ HP2]. constructor; [done | by apply IH].
Qed.

Lemma tokenization_tokens s toks :
  tokenization s toks → Forall (λ t, t ≠ [] ∧ Forall nondelim_char t) toks.
Proof.
  induction 1 as [d Hd|d t Hd Ht Hw|d t c rest toks Hd Ht Hw Hc _ IH];
    by repeat constructor.
Qed.

Lemma tokens_of_are_tokens line : Forall token (tokens_of (cstr line)).
Proof.
  pose proof (tokens_of_tokenization (cstr line)) as H.
  pose proof (tokenization_tokens _ _ H) as H1.
  pose proof (tokenization_chars nonnul _ _ H (cstr_nonnul line)) as H2.
  apply Forall_forall. intros t Hin.
  rewrite Forall_forall in H1, H2. destruct (H1 t Hin) as [Hne Hnd].
  split; [done|]. apply Forall_forall. intros c Hc.
  rewrite Forall_forall in Hnd. specialize (H2 t Hin).
  rewrite Forall_forall in H2. split; [by apply Hnd | by apply H2].
Qed.

(** X10: for a line with fewer than 64 tokens the tokenizer returns the
    tokenization of the line's text: every token is non-empty and holds
    no delimiter and no terminator, the array holds one slot per token
    and then the null sentinel, every store is in bounds, the one request
    is the [malloc] of 64 pointers, and the buffer is the line with
    terminators over some of its delimiters. *)
Theorem X10_tokenizer_correct_below_64_tokens os line w :
  alloc_ok os (sizeof_ptr os * USH_TOK_BUFSIZE) = true →
  length (tokens_of (cstr line)) < USH_TOK_BUFSIZE →
  ∃ tokens line' w',
    ush_split_line os line w = Ret (tokens, line') w' ∧
    tokenization (cstr line) (args_of line' (ta_slots tokens)) ∧
    Forall token (args_of line' (ta_slots tokens)) ∧
    length (ta_slots tokens) = S (length (args_of line' (ta_slots tokens))) ∧
    last (ta_slots tokens) = Some Null ∧
    w_oob w' = w_oob w ∧
    w_heap w' = w_heap w ++ [sizeof_ptr os * USH_TOK_BUFSIZE] ∧
    cut line line'.
Proof.
  intros Halloc Hcount.
  destruct (ush_split_line_small os line w Halloc Hcount)
    as (offs & line' & Hrun & Hargs & _).
  eexists _, _, _. split; [exact Hrun|]. cbn [ta_slots].
  rewrite Hargs. split; [apply tokens_of_tokenization|].
  split; [apply tokens_of_are_tokens|].
  split.
  { rewrite <- Hargs, args_of_texts. unfold texts.
    rewrite length_app, !length_map. simpl. lia. }
  split; [apply last_snoc|]. split; [done|]. split; [done|].
  by apply ush_split_line_cut in Hrun.
Qed.

Lemma X10_tokenizer_correct_below_64_tokens_witness :
  ∃ tokens line' w',
    ush_split_line os64 (typed "ls -l" ++ [NUL]) (session [])
    = Ret (tokens, line') w' ∧
    tokenization (cstr (typed "ls -l" ++ [NUL])) (args_of line' (ta_slots tokens)) ∧
    Forall token (args_of line' (ta_slots tokens)) ∧
    length (ta_slots tokens) = S (length (args_of line' (ta_slots tokens))) ∧
    last (ta_slots tokens) = Some Null ∧
    w_oob w' = w_oob (session []) ∧
    w_heap w' = w_heap (session []) ++ [sizeof_ptr os64 * USH_TOK_BUFSIZE] ∧
    cut (typed "ls -l" ++ [NUL]) line'.
Proof.
  apply (X10_tokenizer_correct_below_64_tokens os64 (typed "ls -l" ++ [NUL])
           (session [])); [reflexivity|].
  vm_compute. lia.
Defined.

(** X11: for a line of 64 tokens or more, when pointers take at least two
    bytes and the allocator grants every request, the tokenizer returns
    after a store at slot 64 outside the 128 bytes its first [realloc]
    asked for. *)
Theorem X11_tokenizer_overruns_from_64_tokens os line w :
  (∀ n, alloc_ok os n = true) →
  2 ≤ sizeof_ptr os →
  USH_TOK_BUFSIZE ≤ length (tokens_of (cstr line)) →
  ∃ r w' vs,
    ush_split_line os line w = Ret r w' ∧
    w_oob w' = w_oob w ++ StoreOutOfBounds 64 128 :: vs ∧
    ¬ mem_safe w'.
Proof.
  intros Halloc Hsz Hcount.
  destruct (ush_split_line_big os line w Halloc Hsz Hcount)
    as (r & w' & vs & Hrun & Hv).
  exists r, w', vs. split; [done|]. split; [exact Hv|].
  unfold mem_safe. rewrite Hv. intros E. by apply app_eq_nil in E as [_ ?].
Qed.

Lemma X11_tokenizer_overruns_from_64_tokens_witness :
  ∃ r w' vs,
    ush_split_line os64 (line64 ++ [NUL]) (session []) = Ret r w' ∧
    w_oob w' = w_oob (session []) ++ StoreOutOfBounds 64 128 :: vs ∧
    ¬ mem_safe w'.
Proof.
  apply (X11_tokenizer_overruns_from_64_tokens os64 (line64 ++ [NUL]) (session []));
    [reflexivity | simpl; lia | vm_compute; lia].
Defined.

Lemma cstr_token t : token t → cstr t = t.
Proof.
  intros [_ H]. rewrite <- (app_nil_r t) at 1.
  apply cstr_nonnul_end; [by apply word_char_nonnul | done].
Qed.

Lemma echo_text_cons arg args :
  token arg → echo_text (arg :: args) = arg ++ " "%char :: echo_text args.
Proof.
  intros H. unfold echo_text. cbn [map concat]. rewrite cstr_token by done.
  by rewrite <- !app_assoc.
Qed.

Lemma echo_text_nonnul args : Forall token args → Forall nonnul (echo_text args).
Proof.
  induction 1 as [|arg args Ha _ IH]; [by repeat constructor|].
  rewrite echo_text_cons by done. apply Forall_app. split.
  - apply word_char_nonnul, Ha.
  - by constructor.
Qed.

Lemma tokens_of_echo_text args :
  Forall token args → tokens_of (cstr (echo_text args)) = args.
Proof.
  intros H.
  assert (E : cstr (echo_text args) = echo_text args).
  { rewrite <- (app_nil_r (echo_text args)) at 1.
    apply cstr_nonnul_end; [by apply echo_text_nonnul | done]. }
  rewrite E. clear E. induction H as [|arg args [Hne Hw] _ IH]; [done|].
  rewrite echo_text_cons by done.
  rewrite tokens_of_word_delim; [by rewrite IH | by apply word_char_nondelim
                                | done | done].
Qed.

(** X13: what [echo] prints reads back as its arguments: for arguments
    that are tokens, the text [echo] writes, typed as a line, is split by
    the tokenizer into these same arguments. *)
Theorem X13_echo_output_tokenizes_to_its_arguments os cmd args w w0 :
  Forall token args → length args < USH_TOK_BUFSIZE →
  alloc_ok os (sizeof_ptr os * USH_TOK_BUFSIZE) = true →
  ∃ w1 tokens line' w2,
    ush_echo (cmd :: args) w = Ret 1%Z w1 ∧
    w_stdout w1 = w_stdout w ++ echo_text args ∧
    ush_split_line os (echo_text args ++ [NUL]) w0 = Ret (tokens, line') w2 ∧
    args_of line' (ta_slots tokens) = args.
Proof.
  intros Hargs Hlen Halloc.
  destruct (ush_split_line_small os (echo_text args ++ [NUL]) w0 Halloc)
    as (offs & line' & Hrun & Hout & _).
  { by rewrite cstr_app_nul, tokens_of_echo_text. }
  eexists _, _, _, _. split; [apply ush_echo_spec|].
  split; [reflexivity|]. split; [exact Hrun|].
  cbn [ta_slots]. by rewrite Hout, cstr_app_nul, tokens_of_echo_text.
Qed.

Lemma X13_echo_output_tokenizes_to_its_arguments_witness :
  ∃ w1 tokens line' w2,
    ush_echo [lit "echo"; lit "a"; lit "b"] (session []) = Ret 1%Z w1 ∧
    w_stdout w1 = w_stdout (session []) ++ echo_text [lit "a"; lit "b"] ∧
    ush_split_line os64 (echo_text [lit "a"; lit "b"] ++ [NUL]) (session [])
    = Ret (tokens, line') w2 ∧
    args_of line' (ta_slots tokens) = [lit "a"; lit "b"].
Proof.
  apply (X13_echo_output_tokenizes_to_its_arguments os64 (lit "echo")
           [lit "a"; lit "b"] (session []) (session []));
    [|simpl; unfold USH_TOK_BUFSIZE; lia | reflexivity].
  repeat constructor; by vm_compute.
Defined.

(** * The loop, one line at a time *)

(** One pass of the loop on a line with fewer than 64 tokens: the prompt
    is printed, the line is taken from the input, the token array is
    allocated; a line with a command is recorded, as the buffer [line']
    the tokenizer left, and then run. *)
Lemma ush_loop_body_small os line rest w :
  w_stdin w = line :: rest →
  alloc_ok os (sizeof_ptr os * USH_TOK_BUFSIZE) = true →
  length (tokens_of (cstr line)) < USH_TOK_BUFSIZE →
  ∃ line',
    ush_loop_body os w
    = match tokens_of (cstr line) with
      | [] => ush_execute os []
      | t1 :: ts =>
          sh_bind (add_to_history_util os line')
                  (λ _, ush_execute os (t1 :: ts))
      end
        (set_heap (w_heap w ++ [sizeof_ptr os * USH_TOK_BUFSIZE])
           (set_stdin rest (set_stdout (w_stdout w ++ prompt_text) w))) ∧
    (∀ t1 ts, tokens_of (cstr line) = t1 :: ts →
       ∃ d rest', line ++ [NUL] = d ++ t1 ++ rest' ∧ Forall delim_char d ∧
                  cstr line' = d ++ t1).
Proof.
  intros Hin Halloc Hcount.
  edestruct (ush_split_line_small os (line ++ [NUL])
               (set_stdin rest (set_stdout (w_stdout w ++ prompt_text) w)))
    as (offs & line' & Hrun & Hargs & _ & Hfirst);
    [exact Halloc | by rewrite cstr_app_nul |].
  rewrite cstr_app_nul in Hargs, Hfirst.
  exists line'. split; [|exact Hfirst].
  unfold ush_loop_body, print, ush_read_line. sh_unfold.
  cbn [w_stdin set_stdout]. rewrite Hin. cbn [set_stdin].
  unfold prompt_text in Hrun. rewrite Hrun.
  rewrite args_of_texts in Hargs. cbn [ta_slots]. rewrite args_of_texts, Hargs.
  destruct offs as [|o offs]; cbn [map app lookup list_lookup is_null negb].
  - rewrite <- Hargs. by cbn.
  - destruct (tokens_of (cstr line)) as [|t1 ts]; [discriminate|].
    by destruct (add_to_history_util os line' _) as [[] w1| |];
      [destruct (ush_execute os (t1 :: ts) w1)|..].
Qed.

(** * More on the ring *)





(** * Commands typed at the prompt *)





(** X16: the cursor moves exactly for a line with a command: when the
    body of the loop returns on a line with fewer than 64 tokens, the
    cursor is one further (modulo 20) if the line has a token, and is
    where it was, with the slots as they were, if it has none. *)
Theorem X16_cursor_moves_iff_command os line rest w c w' :
  w_stdin w = line :: rest →
  alloc_ok os (sizeof_ptr os * USH_TOK_BUFSIZE) = true →
  length (tokens_of (cstr line)) < USH_TOK_BUFSIZE →
  ush_loop_body os w = Ret c w' →
  (tokens_of (cstr line) ≠ [] →
   history_pos w' = (history_pos w + 1) mod USH_MAX_HISTORY_COUNT) ∧
  (tokens_of (cstr line) = [] →
   history_pos w' = history_pos w ∧ history_str w' = history_str w).
Proof.
  intros Hin Halloc Hcount.
  destruct (ush_loop_body_small os line rest w Hin Halloc Hcount)
    as (line' & -> & _).
  destruct (tokens_of (cstr line)) as [|t1 ts].
  - intros [= _ <-]. by split.
  - intros (u & w1 & Hadd & Hex)%bind_inv. split; [|done]. intros _.
    destruct (keeps_ush_execute os _ _ _ _ Hex) as [_ ->].
    destruct (alloc_ok os (strlen line' * 1)) eqn:Ea.
    + rewrite add_to_history_util_spec in Hadd by done.
      destruct u. by injection Hadd as <-.
    + by rewrite add_to_history_util_refused in Hadd.
Qed.

Lemma X16_cursor_moves_iff_command_witness :
  ∃ w',
    ush_loop_body os64 (session [typed "ls"]) = Ret 1%Z w' ∧
    (tokens_of (cstr (typed "ls")) ≠ [] →
     history_pos w'
     = (history_pos (session [typed "ls"]) + 1) mod USH_MAX_HISTORY_COUNT) ∧
    (tokens_of (cstr (typed "ls")) = [] →
     history_pos w' = history_pos (session [typed "ls"]) ∧
     history_str w' = history_str (session [typed "ls"])).
Proof.
  assert (E : ∃ w', ush_loop_body os64 (session [typed "ls"]) = Ret 1%Z w')
    by (eexists; vm_compute; reflexivity).
  destruct E as [w' E]. exists w'. split; [exact E|].
  apply (X16_cursor_moves_iff_command os64 (typed "ls") [] (session [typed "ls"])
           1%Z w'); [reflexivity | reflexivity | vm_compute; lia | exact E].
Defined.










(** ** Programs that are not builtins *)





